(** * Librarian: archival photometry look-up (Librarian.py)

    A shallow embedding of the class [Librarian]: the band registry
    [filter_names], the class attribute [catalogs], the identifier
    resolution [gaia_query], the orchestrator [get_magnitudes], the
    per-catalogue row selectors [_get_*], the extractor
    [_retrieve_from_cat] and the merge operation [_add_mags].

    Python objects are kept as explicit state: the three NumPy arrays of
    an instance, the class-level dictionary [catalogs] (whose second
    components are [zip] iterators, consumed as they are iterated) and
    the list of warnings issued so far.  Exceptions are an error result. *)

From Stdlib Require Import String Ascii List Bool Arith ZArith QArith Lia.
Import ListNotations.

Open Scope string_scope.
Open Scope Z_scope.

(** ** Exceptions and the state-and-exception monad *)

Inductive exn : Type :=
| TypeError
| KeyError
| ValueError
| IndexError.

Inductive result (A : Type) : Type :=
| Ok (a : A)
| Raise (e : exn).

Arguments Ok {A} a.
Arguments Raise {A} e.

(** A band triple of a catalogue: (magnitude column, error column, band). *)
Definition triple : Type := (string * string * string)%type.

(** [CatalogWarning(par, type)] of module [Error]; only [warn] issues it. *)
Record CatalogWarning : Type := mkWarning {
  w_par : string;
  w_type : Z
}.

Record state : Type := mkState {
  (* instance attributes *)
  g_id : string;
  verbose : bool;
  ids : list (string * string);
  used_filters : list Z;
  mags : list Q;
  mag_errs : list Q;
  (* class attribute: name -> [table key, zip iterator]; the iterator is
     given by the triples it has not yielded yet *)
  catalogs : list (string * (string * list triple));
  (* warnings issued so far, oldest first *)
  issued : list CatalogWarning
}.

Definition M (A : Type) : Type := state -> result (A * state).

Definition ret {A} (a : A) : M A := fun st => Ok (a, st).

Definition bind {A B} (m : M A) (k : A -> M B) : M B :=
  fun st =>
    match m st with
    | Ok (a, st') => k a st'
    | Raise e => Raise e
    end.

Definition raise {A} (e : exn) : M A := fun _ => Raise e.

Definition lift {A} (r : result A) : M A :=
  fun st =>
    match r with
    | Ok a => Ok (a, st)
    | Raise e => Raise e
    end.

Definition get : M state := fun st => Ok (st, st).

Definition put (st : state) : M unit := fun _ => Ok (tt, st).

(** [try: m except <handled>: h]: an exception leaves the state as it was
    when the [try] was entered, since nothing in a guarded body of
    [get_magnitudes] writes before it raises. *)
Definition try_except {A} (m : M A) (handled : exn -> bool) (h : M A) : M A :=
  fun st =>
    match m st with
    | Ok r => Ok r
    | Raise e => if handled e then h st else Raise e
    end.

Declare Scope monad_scope.
Delimit Scope monad_scope with monad.
Notation "x <- m ;; k" := (bind m (fun x => k))
  (at level 61, m at next level, right associativity) : monad_scope.
Notation "m ;;; k" := (bind m (fun _ => k))
  (at level 61, right associativity) : monad_scope.
Open Scope monad_scope.

(** ** Python dictionaries as association lists (insertion order kept) *)

Fixpoint dict_get {V} (d : list (string * V)) (k : string) : option V :=
  match d with
  | [] => None
  | (k', v) :: d' => if String.eqb k k' then Some v else dict_get d' k
  end.

Fixpoint dict_set {V} (d : list (string * V)) (k : string) (v : V)
  : list (string * V) :=
  match d with
  | [] => [(k, v)]
  | (k', v') :: d' =>
      if String.eqb k k' then (k', v) :: d' else (k', v') :: dict_set d' k v
  end.

Definition dict_keys {V} (d : list (string * V)) : list string := map fst d.

Definition dict_in {V} (k : string) (d : list (string * V)) : bool :=
  match dict_get d k with Some _ => true | None => false end.

(** [d[k]] on a [dict]: [KeyError] on a missing key. *)
Definition getitem {V} (d : list (string * V)) (k : string) : result V :=
  match dict_get d k with
  | Some v => Ok v
  | None => Raise KeyError
  end.

(** ** NumPy arrays *)

(** [sp.where(f == names)[0]]: the positions at which [names] holds [f]. *)
Fixpoint where_from (k : nat) (f : string) (names : list string) : list nat :=
  match names with
  | [] => []
  | n :: ns =>
      if String.eqb f n then k :: where_from (S k) f ns
      else where_from (S k) f ns
  end.

Definition where_eq (f : string) (names : list string) : list nat :=
  where_from 0 f names.

(** [a[idx]] with an index array: [IndexError] out of range. *)
Fixpoint take_idx {X} (a : list X) (idx : list nat) : result (list X) :=
  match idx with
  | [] => Ok []
  | i :: idx' =>
      match nth_error a i with
      | None => Raise IndexError
      | Some x =>
          match take_idx a idx' with
          | Ok xs => Ok (x :: xs)
          | Raise e => Raise e
          end
      end
  end.

(** In-place update of one position. *)
Fixpoint set_nth {X} (a : list X) (i : nat) (x : X) : list X :=
  match a, i with
  | [], _ => []
  | _ :: a', O => x :: a'
  | y :: a', S i' => y :: set_nth a' i' x
  end.

(** [a[idx] = x] with a scalar [x]. *)
Fixpoint put_scalar {X} (a : list X) (idx : list nat) (x : X) : result (list X) :=
  match idx with
  | [] => Ok a
  | i :: idx' =>
      if Nat.ltb i (length a) then put_scalar (set_nth a i x) idx' x
      else Raise IndexError
  end.

Fixpoint put_each {X} (a : list X) (idx : list nat) (xs : list X) : result (list X) :=
  match idx, xs with
  | i :: idx', x :: xs' =>
      if Nat.ltb i (length a) then put_each (set_nth a i x) idx' xs'
      else Raise IndexError
  | _, _ => Ok a
  end.

(** [a[idx] = xs] with a one-dimensional array [xs]: its length must be
    that of [idx], or one (broadcast); otherwise NumPy raises ValueError. *)
Definition put_array {X} (a : list X) (idx : list nat) (xs : list X)
  : result (list X) :=
  if Nat.eqb (length xs) (length idx) then put_each a idx xs
  else
    match xs with
    | [x] => put_scalar a idx x
    | _ => Raise ValueError
    end.

(** Truth value of a boolean array in an [if]: that of its element when it
    has one; false (with a deprecation notice) when it is empty, in the
    NumPy releases that SciPy's [sp.array], [sp.where], [sp.zeros] go
    with; ValueError when it has more than one element. *)
Definition truth (b : list bool) : result bool :=
  match b with
  | [] => Ok false
  | [x] => Ok x
  | _ => Raise ValueError
  end.

(** ** Catalogue tables

    A table of the query service has named columns with one entry per
    row: text columns, and numeric columns whose entries may be masked
    ([None]).  The photometric columns are numeric.  An identifier column
    is of either kind: the selectors compare it with text, and what the
    comparison gives depends on the kind (see [eq_bytes]). *)

Record table : Type := mkTable {
  text_cols : list (string * list string);
  num_cols : list (string * list (option Q))
}.

(** [cat[name]] for a photometric column. *)
Definition num_col (cat : table) (name : string) : result (list (option Q)) :=
  getitem (num_cols cat) name.

(** [column == value], element by element. *)
Definition col_eq (col : list string) (v : string) : list bool :=
  map (fun x => String.eqb x v) col.

(** [mask *= other] on boolean arrays. *)
Fixpoint mask_mul (m1 m2 : list bool) : list bool :=
  match m1, m2 with
  | b1 :: m1', b2 :: m2' => andb b1 b2 :: mask_mul m1' m2'
  | _, _ => []
  end.

(** Rows of one column kept by a boolean mask. *)
Fixpoint select {X} (mask : list bool) (col : list X) : list X :=
  match mask, col with
  | b :: mask', x :: col' =>
      if b then x :: select mask' col' else select mask' col'
  | _, _ => []
  end.

(** [cat[mask]]: the sub-table of the rows where the mask holds. *)
Definition table_mask (cat : table) (mask : list bool) : table :=
  {| text_cols := map (fun c => (fst c, select mask (snd c))) (text_cols cat);
     num_cols := map (fun c => (fst c, select mask (snd c))) (num_cols cat) |}.

(** [sp.ma.is_masked(col)]: some entry is masked. *)
Definition is_masked (col : list (option Q)) : bool :=
  existsb (fun c => match c with None => true | Some _ => false end) col.

(** [col == 0], element by element (a masked entry compares as not equal;
    none is left where the comparison is made). *)
Definition col_is_zero (col : list (option Q)) : list bool :=
  map (fun c => match c with Some q => Qeq_bool q 0 | None => false end) col.

(** The numbers of a column; a masked entry has no number, and none is
    left where this is used. *)
Definition col_data (col : list (option Q)) : list Q :=
  map (fun c => match c with Some q => q | None => 0%Q end) col.

(** ** The class body *)

Definition filter_names : list string := [
  "2MASS_H"; "2MASS_J"; "2MASS_Ks";
  "GROUND_JOHNSON_U"; "GROUND_JOHNSON_V"; "GROUND_JOHNSON_B";
  "GaiaDR2v2_G"; "GaiaDR2v2_RP"; "GaiaDR2v2_BP";
  "PS1_g"; "PS1_i"; "PS1_r"; "PS1_w"; "PS1_y"; "PS1_z";
  "SDSS_g"; "SDSS_i"; "SDSS_r"; "SDSS_u"; "SDSS_z";
  "WISE_RSR_W1"; "WISE_RSR_W2"; "GALEX_FUV"; "GALEX_NUV"
].

Definition apass_mags := ["Vmag"; "Bmag"; "g_mag"; "r_mag"; "i_mag"].
Definition apass_errs := ["e_Vmag"; "e_Bmag"; "e_g_mag"; "e_r_mag"; "e_i_mag"].
Definition apass_filters :=
  ["GROUND_JOHNSON_V"; "GROUND_JOHNSON_B"; "SDSS_g"; "SDSS_r"; "SDSS_i"].
Definition ascc_mags := ["Vmag"; "Bmag"; "Jmag"; "Hmag"; "Kmag"].
Definition ascc_errs := ["e_Vmag"; "e_Bmag"; "e_Jmag"; "e_Hmag"; "e_Kmag"].
Definition ascc_filters :=
  ["GROUND_JOHNSON_V"; "GROUND_JOHNSON_B"; "2MASS_J"; "2MASS_H"; "2MASS_Ks"].
Definition wise_mags := ["W1mag"; "W2mag"].
Definition wise_errs := ["e_W1mag"; "e_W2mag"].
Definition wise_filters := ["WISE_RSR_W1"; "WISE_RSR_W2"].
Definition ps1_mags := ["gmag"; "rmag"; "imag"; "zmag"; "ymag"].
Definition ps1_errs := ["e_gmag"; "e_rmag"; "e_imag"; "e_zmag"; "e_ymag"].
Definition ps1_filters := ["PS1_g"; "PS1_r"; "PS1_i"; "PS1_z"; "PS1_y"].
Definition twomass_mags := ["Jmag"; "Hmag"; "Kmag"].
Definition twomass_errs := ["e_Jmag"; "e_Hmag"; "e_Kmag"].
Definition twomass_filters := ["2MASS_J"; "2MASS_H"; "2MASS_Ks"].
Definition gaia_mags := ["Gmag"; "BPmag"; "RPmag"].
Definition gaia_errs := ["e_Gmag"; "e_BPmag"; "e_RPmag"].
Definition gaia_filters := ["GaiaDR2v2_G"; "GaiaDR2v2_BP"; "GaiaDR2v2_RP"].
Definition sdss_mags := ["umag"; "gmag"; "rmag"; "imag"; "zmag"].
Definition sdss_errs := ["e_umag"; "e_gmag"; "e_rmag"; "e_imag"; "e_zmag"].
Definition sdss_filters := ["SDSS_u"; "SDSS_g"; "SDSS_r"; "SDSS_i"; "SDSS_z"].
Definition galex_mags := ["FUV"; "NUV"].
Definition galex_errs := ["e_FUV"; "e_NUV"].
Definition galex_filters := ["GALEX_FUV"; "GALEX_NUV"].

(** [zip(a, b, c)]: a fresh iterator, here the triples it will yield. *)
Fixpoint zip (a b c : list string) : list triple :=
  match a, b, c with
  | x :: a', y :: b', z :: c' => (x, y, z) :: zip a' b' c'
  | _, _, _ => []
  end.

(** The dictionary [catalogs] as the class statement leaves it: built once,
    when the module is imported. *)
Definition Librarian_catalogs : list (string * (string * list triple)) := [
  ("ASCC", ("I/280B/ascc", zip ascc_mags ascc_errs ascc_filters));
  ("APASS", ("II/336/apass9", zip apass_mags apass_errs apass_filters));
  ("Wise", ("II/328/allwise", zip wise_mags wise_errs wise_filters));
  ("Pan-STARRS", ("II/349/ps1", zip ps1_mags ps1_errs ps1_filters));
  ("Gaia", ("I/345/gaia2", zip gaia_mags gaia_errs gaia_filters));
  ("2MASS", ("II/246/out", zip twomass_mags twomass_errs twomass_filters));
  ("SDSS", ("V/147/sdss12", zip sdss_mags sdss_errs sdss_filters));
  ("GALEX", ("II/312/ais", zip galex_mags galex_errs galex_filters))
].

(** ** State updates *)

Definition set_used (u : list Z) (st : state) : state :=
  mkState (g_id st) (verbose st) (ids st) u (mags st) (mag_errs st)
          (catalogs st) (issued st).

Definition set_mags (m : list Q) (st : state) : state :=
  mkState (g_id st) (verbose st) (ids st) (used_filters st) m (mag_errs st)
          (catalogs st) (issued st).

Definition set_mag_errs (e : list Q) (st : state) : state :=
  mkState (g_id st) (verbose st) (ids st) (used_filters st) (mags st) e
          (catalogs st) (issued st).

Definition set_ids (i : list (string * string)) (st : state) : state :=
  mkState (g_id st) (verbose st) i (used_filters st) (mags st) (mag_errs st)
          (catalogs st) (issued st).

Definition set_catalogs (c : list (string * (string * list triple)))
  (st : state) : state :=
  mkState (g_id st) (verbose st) (ids st) (used_filters st) (mags st) (mag_errs st)
          c (issued st).

Definition set_issued (w : list CatalogWarning) (st : state) : state :=
  mkState (g_id st) (verbose st) (ids st) (used_filters st) (mags st) (mag_errs st)
          (catalogs st) w.

Definition modify (f : state -> state) : M unit :=
  fun st => Ok (tt, f st).

(** [w.warn()]: the warning is issued. *)
Definition warned (w : CatalogWarning) (st : state) : state :=
  set_issued (issued st ++ [w]) st.

Definition warn (w : CatalogWarning) : M unit := modify (warned w).

(** ** Merge operation *)

Definition _add_mags (mag er : list Q) (filt : string) : M unit :=
  let filt_idx := where_eq filt filter_names in
  st <- get ;;
  u <- lift (take_idx (used_filters st) filt_idx) ;;
  b <- lift (truth (map (fun x => Z.eqb x 1) u)) ;;
  if b then
    (* the warning object is built and dropped: [warn] is not called *)
    if verbose st then let _ := mkWarning filt 6 in ret tt else ret tt
  else
    used' <- lift (put_scalar (used_filters st) filt_idx 1) ;;
    modify (set_used used') ;;;
    st1 <- get ;;
    mags' <- lift (put_array (mags st1) filt_idx mag) ;;
    modify (set_mags mags') ;;;
    st2 <- get ;;
    errs' <- lift (put_array (mag_errs st2) filt_idx er) ;;
    modify (set_mag_errs errs').

(** ** Extractor and validator *)

(** One [next()] on the iterator [catalogs[name][1]] leaves [rest]. *)
Definition advanced (name : string) (rest : list triple) (st : state)
  : state :=
  match dict_get (catalogs st) name with
  | Some (key, _) => set_catalogs (dict_set (catalogs st) name (key, rest)) st
  | None => st
  end.

Definition advance (name : string) (rest : list triple) : M unit :=
  modify (advanced name rest).

(** The [for] loop of [_retrieve_from_cat] over the triples the iterator
    still holds; a [return] in the body ends it where it stands. *)
Fixpoint retrieve_loop (cat : table) (name : string) (its : list triple)
  : M unit :=
  match its with
  | [] => ret tt
  | (m, e, f) :: rest =>
      advance name rest ;;;
      let filt_idx := where_eq f filter_names in
      st <- get ;;
      u <- lift (take_idx (used_filters st) filt_idx) ;;
      b <- lift (truth (map (fun x => Z.eqb x 1) u)) ;;
      if b then
        if verbose st then let _ := mkWarning f 6 in ret tt else ret tt
      else
        mag <- lift (num_col cat m) ;;
        err <- lift (num_col cat e) ;;
        if is_masked mag then warn (mkWarning m 2)
        else if is_masked err then warn (mkWarning m 3)
        else
          z <- lift (truth (col_is_zero err)) ;;
          if z then warn (mkWarning m 4)
          else
            _add_mags (col_data mag) (col_data err) f ;;;
            retrieve_loop cat name rest
  end.

Definition _retrieve_from_cat (cat : table) (name : string) : M unit :=
  st <- get ;;
  entry <- lift (getitem (catalogs st) name) ;;
  retrieve_loop cat name (snd entry).

(** ** Row selectors *)

(** [s.split(sep)]: the pieces of [s] between occurrences of [sep]. *)
Fixpoint split (sep : ascii) (s : string) : list string :=
  match s with
  | EmptyString => [EmptyString]
  | String c s' =>
      if Ascii.eqb c sep then EmptyString :: split sep s'
      else
        match split sep s' with
        | [] => [String c EmptyString]
        | p :: ps => String c p :: ps
        end
  end.

(** [self.ids[name]] *)
Definition ids_item (name : string) : M string :=
  st <- get ;; lift (getitem (ids st) name).

(** A column of either kind, as [cat[name]] returns it. *)
Inductive column : Type :=
| TextColumn (l : list string)
| NumColumn (l : list (option Q)).

Definition any_col (cat : table) (name : string) : result column :=
  match dict_get (text_cols cat) name with
  | Some l => Ok (TextColumn l)
  | None =>
      match dict_get (num_cols cat) name with
      | Some l => Ok (NumColumn l)
      | None => Raise KeyError
      end
  end.

(** [column == value] for an identifier or a piece of one, which is text
    (bytes, or a string): on a text column the comparison is made element
    by element; on a numeric column NumPy cannot compare numbers with
    text, gives the elementwise comparison up, and the result is Python's
    [False]. *)
Inductive compared : Type :=
| Elementwise (l : list bool)
| PyFalse.

Definition eq_bytes (c : column) (piece : string) : compared :=
  match c with
  | TextColumn l => Elementwise (col_eq l piece)
  | NumColumn _ => PyFalse
  end.

(** The values that the variable [mask] of a selector takes: a boolean
    array, Python's [False], the integer 0 ([False * False]), or an array
    of [n] integer zeros ([0 * array]). *)
Inductive mask_value : Type :=
| BoolArray (l : list bool)
| MaskFalse
| MaskZero
| ZeroArray (n : nat).

Definition first_mask (c : compared) : mask_value :=
  match c with
  | Elementwise l => BoolArray l
  | PyFalse => MaskFalse
  end.

(** [mask *= other] *)
Definition imul (mask : mask_value) (other : compared) : mask_value :=
  match mask, other with
  | BoolArray a, Elementwise b => BoolArray (mask_mul a b)
  | BoolArray a, PyFalse => BoolArray (map (fun _ => false) a)
  | MaskFalse, Elementwise b => BoolArray (map (fun _ => false) b)
  | MaskFalse, PyFalse => MaskZero
  | MaskZero, Elementwise b => ZeroArray (length b)
  | MaskZero, PyFalse => MaskZero
  | ZeroArray n, _ => ZeroArray n
  end.

(** The number of rows of a table: the length of its columns. *)
Definition n_rows (cat : table) : nat :=
  match text_cols cat, num_cols cat with
  | (_, l) :: _, _ => length l
  | [], (_, l) :: _ => length l
  | [], [] => 0
  end.

(** Row 0 taken [n] times. *)
Definition row0_times {X} (n : nat) (col : list X) : list X :=
  match col with
  | x :: _ => repeat x n
  | [] => []
  end.

(** [cat[mask]]: with a boolean array, the rows where it holds; with
    [False] or 0, which index as the integer 0, row 0 ([IndexError] on a
    table without rows), whose entries the extractor reads like those of
    a table of one row; with an array of zeros, row 0 once per zero. *)
Definition getitem_mask (cat : table) (mask : mask_value) : result table :=
  match mask with
  | BoolArray l => Ok (table_mask cat l)
  | MaskFalse | MaskZero =>
      if Nat.eqb (n_rows cat) 0 then Raise IndexError
      else Ok {| text_cols :=
                   map (fun c => (fst c, row0_times 1 (snd c))) (text_cols cat);
                 num_cols :=
                   map (fun c => (fst c, row0_times 1 (snd c))) (num_cols cat) |}
  | ZeroArray n =>
      if Nat.eqb (n_rows cat) 0 && negb (Nat.eqb n 0) then Raise IndexError
      else Ok {| text_cols :=
                   map (fun c => (fst c, row0_times n (snd c))) (text_cols cat);
                 num_cols :=
                   map (fun c => (fst c, row0_times n (snd c))) (num_cols cat) |}
  end.

Definition _get_ascc (cat : table) : M unit :=
  id <- ids_item "ASCC" ;;
  match split "-" id with
  | [tyc1; tyc2; tyc3] =>
      c1 <- lift (any_col cat "TYC1") ;;
      let mask := first_mask (eq_bytes c1 tyc1) in
      c2 <- lift (any_col cat "TYC2") ;;
      let mask := imul mask (eq_bytes c2 tyc2) in
      c3 <- lift (any_col cat "TYC3") ;;
      let mask := imul mask (eq_bytes c3 tyc3) in
      selected <- lift (getitem_mask cat mask) ;;
      _retrieve_from_cat selected "ASCC"
  | _ => raise ValueError  (* the unpacking needs exactly three pieces *)
  end.

(** The selectors that compare one column with the identifier. *)
Definition select_by (cat : table) (column value name : string) : M unit :=
  c <- lift (any_col cat column) ;;
  let mask := first_mask (eq_bytes c value) in
  selected <- lift (getitem_mask cat mask) ;;
  _retrieve_from_cat selected name.

Definition _get_apass (cat : table) : M unit :=
  id <- ids_item "APASS" ;; select_by cat "recno" id "APASS".

Definition _get_wise (cat : table) : M unit :=
  id <- ids_item "Wise" ;; select_by cat "AllWISE" id "Wise".

Definition _get_2mass (cat : table) : M unit :=
  id <- ids_item "2MASS" ;; select_by cat "_2MASS" id "2MASS".

Definition _get_sdss (cat : table) : M unit :=
  id <- ids_item "SDSS" ;; select_by cat "SDSS12" id "SDSS".

Definition _get_ps1 (cat : table) : M unit :=
  id <- ids_item "Pan-STARRS" ;; select_by cat "objID" id "Pan-STARRS".

Definition _get_gaia (cat : table) : M unit :=
  id <- ids_item "Gaia" ;; select_by cat "DR2Name" ("Gaia DR2 " ++ id) "Gaia".

(** ** Orchestrator *)

(** [cats[key]] on the answer of the query service, which raises TypeError
    when it holds no table under [key]. *)
Definition cats_item (cats : list (string * table)) (key : string)
  : result table :=
  match dict_get cats key with
  | Some t => Ok t
  | None => Raise TypeError
  end.

Definition is_TypeError (e : exn) : bool :=
  match e with TypeError => true | _ => false end.

Definition any_Exception (e : exn) : bool := true.

(** The body of the loop of [get_magnitudes] for the catalogue [c]. *)
Definition get_magnitudes_body (cats : list (string * table)) (c : string)
  : M unit :=
  st <- get ;;
  entry <- lift (getitem (catalogs st) c) ;;
  if dict_in c (ids st) then
    id <- ids_item c ;;
    if String.eqb id "skipped" then ret tt
    else
      r <- try_except
             (t <- lift (cats_item cats (fst entry)) ;; ret (Some t))
             is_TypeError
             (warn (mkWarning c 5) ;;; ret None) ;;
      match r with
      | None => ret tt
      | Some current_cat =>
          if String.eqb c "APASS" then _get_apass current_cat
          else if String.eqb c "Wise" then _get_wise current_cat
          else if String.eqb c "ASCC" then _get_ascc current_cat
          else if String.eqb c "SDSS" then _get_sdss current_cat
          else if String.eqb c "Pan-STARRS" then _get_ps1 current_cat
          else if String.eqb c "Gaia" then _get_gaia current_cat
          else ret tt
      end
  else
    try_except
      (current_cat <- lift (cats_item cats (fst entry)) ;;
       (* [self._retrieve_from_cat(current_cat)]: the parameter [name] gets
          no argument, so the call itself raises TypeError *)
       raise TypeError)
      any_Exception
      (if verbose st then warn (mkWarning c 5) else ret tt).

Fixpoint for_each {A} (l : list A) (body : A -> M unit) : M unit :=
  match l with
  | [] => ret tt
  | x :: l' => body x ;;; for_each l' body
  end.

(** [get_magnitudes], given the answer [cats] of [get_catalogs]. *)
Definition get_magnitudes (cats : list (string * table)) : M unit :=
  st <- get ;;
  for_each (dict_keys (catalogs st)) (get_magnitudes_body cats).

(** ** Identifier resolution *)

(** The chain of [if]s that names the catalogue of a Gaia neighbour table;
    [cat] keeps its value when none applies. *)
Definition cat_of (c cat : string) : string :=
  let cat := if String.eqb c "apassdr9" then "APASS" else cat in
  let cat := if String.eqb c "tmass" then "2MASS" else cat in
  let cat := if String.eqb c "tycho2" then "ASCC" else cat in
  let cat := if String.eqb c "panstarrs1" then "Pan-STARRS" else cat in
  let cat := if String.eqb c "sdssdr9" then "SDSS" else cat in
  let cat := if String.eqb c "allwise" then "Wise" else cat in
  cat.

(** The loop of [gaia_query]; [best_neighbour c] is the list of the
    identifiers that the query on the neighbour table [c] returns. *)
Fixpoint gaia_query_loop (best_neighbour : string -> list string)
  (cs : list string) (cat : string) (IDS : list (string * string))
  : M (list (string * string)) :=
  match cs with
  | [] => ret IDS
  | c :: cs' =>
      let cat := cat_of c cat in
      match best_neighbour c with
      | r0 :: _ =>
          gaia_query_loop best_neighbour cs' cat (dict_set IDS cat r0)
      | [] =>
          st <- get ;;
          (if verbose st then warn (mkWarning cat 5) else ret tt) ;;;
          gaia_query_loop best_neighbour cs' cat (dict_set IDS cat "skipped")
      end
  end.

Definition gaia_query (best_neighbour : string -> list string) : M unit :=
  st <- get ;;
  let cats :=
    ["tycho2"; "panstarrs1"; "sdssdr9"; "allwise"; "tmass"; "apassdr9"] in
  let IDS := [
    ("ASCC", ""); ("APASS", ""); ("2MASS", ""); ("Pan-STARRS", "");
    ("SDSS", ""); ("Wise", ""); ("Gaia", g_id st)
  ] in
  IDS' <- gaia_query_loop best_neighbour cats "" IDS ;;
  modify (set_ids IDS').

(** What [Librarian(starname, ra, dec, g_id=gid, verbose=v)], with [mags]
    left to its default, does to the attributes, once its call of
    [gaia_params] has returned: the arrays are created and the
    identifiers resolved.  The class attribute and the warnings issued so
    far are not the instance's and stay.  [gaia_params] touches none of
    the attributes kept here, but it can raise or warn; the constructor
    with it is [__init__] below, which raises when [gaia_params] does and
    otherwise is [Librarian_init] run after the warnings of
    [gaia_params]. *)
Definition Librarian_init (gid : string) (v : bool)
  (best_neighbour : string -> list string) : M unit :=
  modify (fun st =>
    mkState gid v (ids st)
            (repeat 0 (length filter_names))
            (repeat 0%Q (length filter_names))
            (repeat 0%Q (length filter_names))
            (catalogs st) (issued st)) ;;;
  gaia_query best_neighbour.

(** The interpreter right after the module is imported. *)
Definition fresh : state :=
  mkState "" true [] [] [] [] Librarian_catalogs [].

(** One resolution: a new instance, then [get_magnitudes]. *)
Definition run (gid : string) (v : bool)
  (best_neighbour : string -> list string) (cats : list (string * table))
  : M unit :=
  Librarian_init gid v best_neighbour ;;; get_magnitudes cats.

(** * Notions used by the properties *)

(** ** Relations kept by every command

    [preserves R m]: whenever [m] ends without an exception, the states
    before and after it are related by [R]. *)

Definition preserves (R : state -> state -> Prop) {A} (m : M A) : Prop :=
  forall st a st', m st = Ok (a, st') -> R st st'.

(** The state after band [i] is populated with [m] and [e]. *)
Definition write (i : nat) (m e : Q) (st : state) : state :=
  set_mag_errs (set_nth (mag_errs st) i e)
    (set_mags (set_nth (mags st) i m)
       (set_used (set_nth (used_filters st) i 1) st)).

(** ** The effects of a run

    [step ok]: the iterator of a dispatched catalogue yields one triple,
    or a warning allowed by [ok] is issued, or one band whose flag is not
    1 is populated with a non-zero error.  [steps ok] is a sequence of
    such effects. *)

Definition same_vector (st st' : state) : Prop :=
  used_filters st' = used_filters st /\
  mags st' = mags st /\
  mag_errs st' = mag_errs st.

(** The catalogues that [get_magnitudes] hands to a selector. *)
Definition dispatched : list string :=
  ["APASS"; "Wise"; "ASCC"; "SDSS"; "Pan-STARRS"; "Gaia"].

Inductive step (ok : CatalogWarning -> Prop) : state -> state -> Prop :=
| step_advance name rest st :
    In name dispatched -> step ok st (advanced name rest st)
| step_warn w st : ok w -> step ok st (warned w st)
| step_write st i m e x :
    nth_error (used_filters st) i = Some x -> x <> 1 ->
    (i < length (mags st))%nat -> (i < length (mag_errs st))%nat ->
    ~ (e == 0)%Q ->
    step ok st (write i m e st).

Inductive steps (ok : CatalogWarning -> Prop) : state -> state -> Prop :=
| steps_nil st : steps ok st st
| steps_cons st st1 st2 :
    step ok st st1 -> steps ok st1 st2 -> steps ok st st2.

(** The warnings that the extractor issues for a rejected triple. *)
Definition rejection (w : CatalogWarning) : Prop :=
  w_type w = 2 \/ w_type w = 3 \/ w_type w = 4.

(** The warnings that the processing of catalogue [c] may issue. *)
Definition warning_of (c : string) (w : CatalogWarning) : Prop :=
  w = mkWarning c 5 \/ rejection w.

Definition any_warning (w : CatalogWarning) : Prop := True.

(** What [steps] does not touch: the identifiers, the iterators of the
    catalogues that are not dispatched; and the warnings only grow, by
    warnings that [ok] allows. *)
Definition frame (ok : CatalogWarning -> Prop) (a b : state) : Prop :=
  ids b = ids a /\ verbose b = verbose a /\
  (forall k, ~ In k dispatched ->
             dict_get (catalogs b) k = dict_get (catalogs a) k) /\
  exists ws, issued b = (issued a ++ ws)%list /\ Forall ok ws.

(** ** Slots of the result vector *)

(** The entries of the three arrays at position [i]. *)
Definition slot (st : state) (i : nat)
  : option Z * option Q * option Q :=
  (nth_error (used_filters st) i,
   nth_error (mags st) i,
   nth_error (mag_errs st) i).

Definition is_used (st : state) (i : nat) : Prop :=
  nth_error (used_filters st) i = Some 1.

(** The three arrays have one entry per band, as [__init__] makes them. *)
Definition wf (st : state) : Prop :=
  length (used_filters st) = length filter_names /\
  length (mags st) = length filter_names /\
  length (mag_errs st) = length filter_names.

(** Every slot that is used in [st] is the same in [st']. *)
Definition locked (st st' : state) : Prop :=
  forall j, is_used st j -> slot st' j = slot st j.

(** ** Statements about the errors of used bands *)

(** Every used band has a non-zero error. *)
Definition errors_nonzero (st : state) : Prop :=
  forall i, is_used st i ->
            exists e, nth_error (mag_errs st) i = Some e /\ ~ (e == 0)%Q.

(** Every used band has an error above zero. *)
Definition errors_positive (st : state) : Prop :=
  forall i e, is_used st i -> nth_error (mag_errs st) i = Some e -> (0 < e)%Q.

(** ** Sample inputs *)

(** No neighbour table of Gaia knows the source. *)
Definition no_neighbour (c : string) : list string := [].

(** An instance right after its arrays are created, nothing resolved. *)
Definition blank : state :=
  mkState "42" false []
          (repeat 0 (length filter_names))
          (repeat 0%Q (length filter_names))
          (repeat 0%Q (length filter_names))
          Librarian_catalogs [].

(** A Gaia table with the row of source 42, whose G error is negative. *)
Definition gaia_negative_error : table :=
  mkTable
    [("DR2Name", ["Gaia DR2 42"])]
    [("Gmag", [Some (21 # 2)]); ("e_Gmag", [Some (-1 # 100)]);
     ("BPmag", [Some (11 # 1)]); ("e_BPmag", [Some (2 # 100)]);
     ("RPmag", [Some (10 # 1)]); ("e_RPmag", [Some (3 # 100)])]%Q.

(** Only the APASS neighbour table knows the source, as record 77. *)
Definition only_apass (c : string) : list string :=
  if String.eqb c "apassdr9" then ["77"] else [].

(** Only the 2MASS neighbour table knows the source. *)
Definition only_tmass (c : string) : list string :=
  if String.eqb c "tmass" then ["J0042"] else [].

(** Tycho-2 and APASS both know the source. *)
Definition tycho_and_apass (c : string) : list string :=
  if String.eqb c "tycho2" then ["12-345-1"]
  else if String.eqb c "apassdr9" then ["77"] else [].

(** A Tycho-2 identifier with two pieces only. *)
Definition short_tycho (c : string) : list string :=
  if String.eqb c "tycho2" then ["12-345"] else [].

(** An APASS table with the one row [recno], whose V magnitude and V
    error are given and whose other entries are valid. *)
Definition apass_table (recno : string) (v ev : option Q) : table :=
  mkTable
    [("recno", [recno])]
    [("Vmag", [v]); ("e_Vmag", [ev]);
     ("Bmag", [Some (25 # 2)]); ("e_Bmag", [Some (2 # 100)]);
     ("g_mag", [Some (61 # 5)]); ("e_g_mag", [Some (3 # 100)]);
     ("r_mag", [Some (59 # 5)]); ("e_r_mag", [Some (4 # 100)]);
     ("i_mag", [Some (58 # 5)]); ("e_i_mag", [Some (5 # 100)])]%Q.

(** An APASS table that lacks the column Vmag. *)
Definition apass_without_Vmag : table :=
  mkTable [("recno", ["77"])] [("e_Vmag", [Some (1 # 100)%Q])].

(** An ASCC table with the row 12-345-1, all entries valid. *)
Definition ascc_table : table :=
  mkTable
    [("TYC1", ["12"]); ("TYC2", ["345"]); ("TYC3", ["1"])]
    [("Vmag", [Some (12 # 1)]); ("e_Vmag", [Some (1 # 100)]);
     ("Bmag", [Some (25 # 2)]); ("e_Bmag", [Some (2 # 100)]);
     ("Jmag", [Some (11 # 1)]); ("e_Jmag", [Some (2 # 100)]);
     ("Hmag", [Some (54 # 5)]); ("e_Hmag", [Some (2 # 100)]);
     ("Kmag", [Some (53 # 5)]); ("e_Kmag", [Some (2 # 100)])]%Q.

(** A 2MASS table with the row of the source, all entries valid. *)
Definition twomass_table : table :=
  mkTable
    [("_2MASS", ["J0042"])]
    [("Jmag", [Some (11 # 1)]); ("e_Jmag", [Some (2 # 100)]);
     ("Hmag", [Some (54 # 5)]); ("e_Hmag", [Some (2 # 100)]);
     ("Kmag", [Some (53 # 5)]); ("e_Kmag", [Some (2 # 100)])]%Q.

(** A Gaia table with the row of source 42 and the given BP magnitude. *)
Definition gaia_table (bp : option Q) : table :=
  mkTable
    [("DR2Name", ["Gaia DR2 42"])]
    [("Gmag", [Some (21 # 2)]); ("e_Gmag", [Some (1 # 100)]);
     ("BPmag", [bp]); ("e_BPmag", [Some (2 # 100)]);
     ("RPmag", [Some (10 # 1)]); ("e_RPmag", [Some (3 # 100)])]%Q.

(** The flags of a vector with exactly the bands [l] used. *)
Definition flags (l : list nat) : list Z :=
  map (fun i => if existsb (Nat.eqb i) l then 1 else 0)
      (seq 0 (length filter_names)).

(** ** Closed form of the identifier resolution *)

(** The neighbour tables of Gaia and the catalogue each one resolves. *)
Definition neighbour_tables : list (string * string) := [
  ("tycho2", "ASCC"); ("panstarrs1", "Pan-STARRS"); ("sdssdr9", "SDSS");
  ("allwise", "Wise"); ("tmass", "2MASS"); ("apassdr9", "APASS")
].

Definition resolved (best_neighbour : string -> list string) (c : string)
  : string :=
  match best_neighbour c with
  | r0 :: _ => r0
  | [] => "skipped"
  end.

Definition resolved_ids (best_neighbour : string -> list string)
  (gid : string) : list (string * string) := [
  ("ASCC", resolved best_neighbour "tycho2");
  ("APASS", resolved best_neighbour "apassdr9");
  ("2MASS", resolved best_neighbour "tmass");
  ("Pan-STARRS", resolved best_neighbour "panstarrs1");
  ("SDSS", resolved best_neighbour "sdssdr9");
  ("Wise", resolved best_neighbour "allwise");
  ("Gaia", gid)
].

Definition no_match_warnings (best_neighbour : string -> list string)
  : list CatalogWarning :=
  flat_map (fun p => match best_neighbour (fst p) with
                     | [] => [mkWarning (snd p) 5]
                     | _ :: _ => []
                     end)
           neighbour_tables.

Definition warning_eqb (a b : CatalogWarning) : bool :=
  String.eqb (w_par a) (w_par b) && Z.eqb (w_type a) (w_type b).

(** How many times [w] occurs in [ws]. *)
Definition count_warning (w : CatalogWarning) (ws : list CatalogWarning)
  : nat :=
  length (filter (warning_eqb w) ws).

(** An interpreter in which an instance was created with [verbose] off and
    for which no neighbour table knew the source. *)
Definition unmatched : state :=
  mkState "42" false (resolved_ids no_neighbour "42")
          (repeat 0 (length filter_names))
          (repeat 0%Q (length filter_names))
          (repeat 0%Q (length filter_names))
          Librarian_catalogs [].

(** An ASCC table with two rows: the first agrees with 12-345-1 on two
    components only, the second on all three. *)
Definition ascc_two_rows : table :=
  mkTable
    [("TYC1", ["12"; "12"]); ("TYC2", ["345"; "345"]); ("TYC3", ["2"; "1"])]
    [("Vmag", [Some (9 # 1); Some (12 # 1)]);
     ("e_Vmag", [Some (1 # 100); Some (1 # 100)]);
     ("Bmag", [Some (19 # 2); Some (25 # 2)]);
     ("e_Bmag", [Some (2 # 100); Some (2 # 100)]);
     ("Jmag", [Some (8 # 1); Some (11 # 1)]);
     ("e_Jmag", [Some (2 # 100); Some (2 # 100)]);
     ("Hmag", [Some (39 # 5); Some (54 # 5)]);
     ("e_Hmag", [Some (2 # 100); Some (2 # 100)]);
     ("Kmag", [Some (38 # 5); Some (53 # 5)]);
     ("e_Kmag", [Some (2 # 100); Some (2 # 100)])]%Q.

(** An instance whose Tycho-2 identifier is 12-345-1. *)
Definition with_tycho : state :=
  set_ids [("ASCC", "12-345-1")] blank.

(** ** Stellar parameters of the Gaia query

    [_get_radius], [_get_teff] and [_get_lum] have one body, which differs
    in the three column names and in the name given to the warning.  The
    numbers of the answer are floating-point numbers, here the rationals
    they stand for; their subtraction rounds, and is a parameter [fsub]
    of the getters.  Comparison does not round. *)

(** [col[0]]: [IndexError] on a column without rows. *)
Definition first_entry {X} (col : list X) : result X :=
  match col with
  | x :: _ => Ok x
  | [] => Raise IndexError
  end.

(** [b > a] in an [if]: a comparison with a masked entry is masked, which
    counts as false. *)
Definition masked_gt (b a : option Q) : bool :=
  match b, a with
  | Some y, Some x => negb (Qle_bool y x)
  | _, _ => false
  end.

(** Python's [max([a, b])]: [b] when [b > a] holds, else [a]. *)
Definition max2 (a b : option Q) : option Q :=
  if masked_gt b a then b else a.

Section Getters.
Variable fsub : Q -> Q -> Q.

(** [a - b] on entries that may be masked: masked if either is. *)
Definition masked_sub (a b : option Q) : option Q :=
  match a, b with
  | Some x, Some y => Some (fsub x y)
  | _, _ => None
  end.

Definition percentile_getter (val lower upper par : string) (res : table)
  : M (Q * option Q) :=
  c <- lift (num_col res val) ;;
  x <- lift (first_entry c) ;;
  match x with
  | None => warn (mkWarning par 1) ;;; ret (0%Q, Some 0%Q)
  | Some v =>
      cl <- lift (num_col res lower) ;;
      lo <- lift (first_entry cl) ;;
      cu <- lift (num_col res upper) ;;
      up <- lift (first_entry cu) ;;
      let e := max2 (masked_sub (Some v) lo) (masked_sub up (Some v)) in
      ret (v, e)
  end.

Definition _get_radius : table -> M (Q * option Q) :=
  percentile_getter "radius_val" "radius_percentile_lower"
                    "radius_percentile_upper" "radius".

Definition _get_teff : table -> M (Q * option Q) :=
  percentile_getter "teff_val" "teff_percentile_lower"
                    "teff_percentile_upper" "teff".

Definition _get_lum : table -> M (Q * option Q) :=
  percentile_getter "lum_val" "lum_percentile_lower"
                    "lum_percentile_upper" "lum".
End Getters.

(** A Gaia answer with a radius of 2 between the percentiles 1.5 and 3,
    and a masked luminosity. *)
Definition gaia_answer : table :=
  mkTable []
    [("radius_val", [Some (2 # 1)]);
     ("radius_percentile_lower", [Some (3 # 2)]);
     ("radius_percentile_upper", [Some (3 # 1)]);
     ("lum_val", [None]);
     ("lum_percentile_lower", [None]);
     ("lum_percentile_upper", [None])]%Q.

(** ** Notions for the invariants of [get_magnitudes] *)

(** The catalogues of the class attribute with their table keys. *)
Definition table_keys (st : state) : list (string * string) :=
  map (fun p => (fst p, fst (snd p))) (catalogs st).

(** The warning types that [get_magnitudes] can issue. *)
Definition typed (w : CatalogWarning) : Prop :=
  In (w_type w) [2; 3; 4; 5].

(** A vector as a resolution builds it: one entry per band, and every
    slot is either untouched (flag, magnitude and error all zero) or
    populated with flag 1. *)
Definition clean (st : state) : Prop :=
  wf st /\
  forall i, (i < length filter_names)%nat ->
            slot st i = (Some 0, Some 0%Q, Some 0%Q) \/
            exists m e, slot st i = (Some 1, Some m, Some e).

(** An instance for which only APASS has an identifier. *)
Definition with_apass : state :=
  set_ids [("APASS", "77")] blank.

(** ** Where the bands of a vector come from *)

(** No dispatched catalogue has, in its iterator, a triple for band [i]. *)
Definition unsupplied (st : state) (i : nat) : Prop :=
  forall name key its t,
    In name dispatched -> dict_get (catalogs st) name = Some (key, its) ->
    In t its -> where_eq (snd t) filter_names <> [i].

(** Every iterator of [st'] holds a suffix of what it held in [st]. *)
Definition iter_shrinks (st st' : state) : Prop :=
  forall k key its',
    dict_get (catalogs st') k = Some (key, its') ->
    exists pre, dict_get (catalogs st) k = Some (key, (pre ++ its')%list).

(** From [st] to [st'] the iterators only shrink and the slots of the
    bands that no iterator supplied are left as they were. *)
Definition feeds (st st' : state) : Prop :=
  iter_shrinks st st' /\
  forall i, unsupplied st i -> slot st' i = slot st i.

(** An instance in an interpreter whose iterators are all consumed. *)
Definition consumed : state :=
  mkState "42" false (resolved_ids no_neighbour "42")
          (flags [6; 7; 8]%nat)
          (repeat 0%Q (length filter_names))
          (repeat 0%Q (length filter_names))
          (map (fun p => (fst p, (fst (snd p), []))) Librarian_catalogs) [].

(** The positions of GROUND_JOHNSON_U, PS1_w, GALEX_FUV and GALEX_NUV. *)
Definition orphan_bands : list nat := [3; 12; 22; 23]%nat.

(** ** A row that the extractor accepts *)

(** The triple [t] is for a registry band that is not used yet, and the
    (selected) table [cat] has one row, with an unmasked magnitude and an
    unmasked error different from zero in the columns of [t]. *)
Definition acceptable (cat : table) (st : state) (t : triple) : Prop :=
  exists i mv ev,
    where_eq (snd t) filter_names = [i] /\ ~ is_used st i /\
    num_col cat (fst (fst t)) = Ok [Some mv] /\
    num_col cat (snd (fst t)) = Ok [Some ev] /\
    ~ (ev == 0)%Q.

(** ** Identifiers *)

(** How many times the character [c] occurs in [s]. *)
Fixpoint occurrences (c : ascii) (s : string) : nat :=
  match s with
  | EmptyString => 0
  | String a s' => (if Ascii.eqb a c then 1 else 0) + occurrences c s'
  end.

(** An instance whose Tycho-2 identifier has one dash. *)
Definition with_short_tycho : state :=
  set_ids [("ASCC", "12-345")] blank.


(** An APASS table, as selected, in which no row has the record number
    of the source. *)
Definition apass_no_row : table :=
  mkTable [("recno", [])] [("Vmag", []); ("e_Vmag", [])].

(** An ASCC table as the catalogue types it, with numeric TYC columns:
    row 0 is the star 99-888-2, row 1 the star 12-345-1. *)
Definition ascc_numeric : table :=
  mkTable []
    [("TYC1", [Some (99 # 1); Some (12 # 1)]);
     ("TYC2", [Some (888 # 1); Some (345 # 1)]);
     ("TYC3", [Some (2 # 1); Some (1 # 1)]);
     ("Vmag", [Some (9 # 1); Some (12 # 1)]);
     ("e_Vmag", [Some (1 # 100); Some (1 # 100)]);
     ("Bmag", [Some (19 # 2); Some (25 # 2)]);
     ("e_Bmag", [Some (2 # 100); Some (2 # 100)]);
     ("Jmag", [Some (8 # 1); Some (11 # 1)]);
     ("e_Jmag", [Some (2 # 100); Some (2 # 100)]);
     ("Hmag", [Some (39 # 5); Some (54 # 5)]);
     ("e_Hmag", [Some (2 # 100); Some (2 # 100)]);
     ("Kmag", [Some (38 # 5); Some (53 # 5)]);
     ("e_Kmag", [Some (2 # 100); Some (2 # 100)])]%Q.


(** ** The constructor with its Gaia queries

    [_get_parallax] adds, squares and takes a square root in floating
    point: the three operations are parameters, as the subtraction is. *)

(** The eight attributes that [gaia_params] assigns.  Nothing else in the
    class reads them: they are the value of the constructor here, not a
    part of [state]. *)
Record parameters : Type := mkParameters {
  plx : option Q; plx_e : option Q;
  temp : Q; temp_e : option Q;
  rad : Q; rad_e : option Q;
  lum : Q; lum_e : option Q
}.

(** [plx <= 0] in an [if]: masked counts as false. *)
Definition masked_le0 (plx : option Q) : bool :=
  match plx with
  | Some x => Qle_bool x 0
  | None => false
  end.

Section Constructor.
Variables fsub fadd : Q -> Q -> Q.
Variables fsqr fsqrt : Q -> Q.

(** The parameter of the warning is the number 0, written as text. *)
Definition _get_parallax (res : table) : M (option Q * option Q) :=
  c <- lift (num_col res "parallax") ;;
  plx <- lift (first_entry c) ;;
  if masked_le0 plx then
    warn (mkWarning "0" 0) ;;; ret (Some 0%Q, Some 0%Q)
  else
    ce <- lift (num_col res "parallax_error") ;;
    plx_e <- lift (first_entry ce) ;;
    ret (option_map (fun x => fadd x (82 # 1000)) plx,
         option_map (fun x => fsqrt (fadd (fsqr x) (fsqr (33 # 1000))))
                    plx_e).

(** [res] is the answer of the query by source id. *)
Definition gaia_params (res : table) : M parameters :=
  p <- _get_parallax res ;;
  t <- _get_teff fsub res ;;
  r <- _get_radius fsub res ;;
  l <- _get_lum fsub res ;;
  ret (mkParameters (fst p) (snd p) (fst t) (snd t)
                    (fst r) (snd r) (fst l) (snd l)).

(** [cone] is the column [source_id] of the answer of the cone search. *)
Definition _get_gaia_id (cone : list string) : M string :=
  lift (first_entry cone).

(** [Librarian(starname, ra, dec, g_id=gid, verbose=v)], with [mags] left
    to its default; [gid] is [None] when no Gaia id is given. *)
Definition __init__ (gid : option string) (v : bool) (cone : list string)
  (res : table) (best_neighbour : string -> list string) : M parameters :=
  modify (fun st =>
    mkState (g_id st) v (ids st)
            (repeat 0 (length filter_names))
            (repeat 0%Q (length filter_names))
            (repeat 0%Q (length filter_names))
            (catalogs st) (issued st)) ;;;
  g <- match gid with
       | None => _get_gaia_id cone
       | Some g => ret g
       end ;;
  modify (fun st =>
    mkState g (verbose st) (ids st) (used_filters st) (mags st)
            (mag_errs st) (catalogs st) (issued st)) ;;;
  p <- gaia_params res ;;
  gaia_query best_neighbour ;;;
  ret p.
End Constructor.

(** The warnings that [gaia_params] can issue. *)
Definition parameter_warnings : list CatalogWarning :=
  [mkWarning "0" 0; mkWarning "teff" 1; mkWarning "radius" 1;
   mkWarning "lum" 1].

(** [b] is [a] with more warnings, each of them in [ok]. *)
Definition warns_only (ok : list CatalogWarning) (a b : state) : Prop :=
  exists ws, b = set_issued (issued a ++ ws) a /\
             Forall (fun w => In w ok) ws.

(** An answer with a negative parallax, an effective temperature of 5000
    between 4900 and 5100, and a masked radius and luminosity. *)
Definition gaia_source : table :=
  mkTable []
    [("parallax", [Some (-1 # 2)]);
     ("parallax_error", [Some (1 # 10)]);
     ("teff_val", [Some (5000 # 1)]);
     ("teff_percentile_lower", [Some (4900 # 1)]);
     ("teff_percentile_upper", [Some (5100 # 1)]);
     ("radius_val", [None]);
     ("radius_percentile_lower", [None]);
     ("radius_percentile_upper", [None]);
     ("lum_val", [None]);
     ("lum_percentile_lower", [None]);
     ("lum_percentile_upper", [None])]%Q.

(** An answer without rows. *)
Definition gaia_no_source : table :=
  mkTable []
    (map (fun f => (f, []))
       ["parallax"; "parallax_error"; "teff_val"; "teff_percentile_lower";
        "teff_percentile_upper"; "radius_val"; "radius_percentile_lower";
        "radius_percentile_upper"; "lum_val"; "lum_percentile_lower";
        "lum_percentile_upper"]).
(** * Properties *)

(** ** Arrays and the band registry *)

Lemma set_nth_length {X} (a : list X) i x : length (set_nth a i x) = length a.
Proof.
  revert i; induction a as [|y a IH]; intros [|i]; simpl; auto.
Qed.

Lemma set_nth_same {X} (a : list X) i x :
  (i < length a)%nat -> nth_error (set_nth a i x) i = Some x.
Proof.
  revert i; induction a as [|y a IH]; intros [|i] H; simpl in *;
    try lia; auto.
  apply IH; lia.
Qed.

Lemma set_nth_other {X} (a : list X) i j x :
  i <> j -> nth_error (set_nth a i x) j = nth_error a j.
Proof.
  revert i j; induction a as [|y a IH]; intros [|i] [|j] H; simpl;
    try congruence; auto.
Qed.

Lemma where_from_absent k f names :
  ~ In f names -> where_from k f names = [].
Proof.
  revert k; induction names as [|n ns IH]; intros k H; simpl; auto.
  destruct (String.eqb_spec f n) as [->|_].
  - exfalso; apply H; now left.
  - apply IH; intro; apply H; now right.
Qed.

Lemma where_from_NoDup k f names :
  NoDup names ->
  where_from k f names = [] \/
  exists i, (i < length names)%nat /\ where_from k f names = [(k + i)%nat] /\
            nth_error names i = Some f.
Proof.
  intros ND; revert k; induction ND as [|n ns Hn ND IH]; intros k; simpl.
  - now left.
  - destruct (String.eqb_spec f n) as [->|_].
    + right; exists 0%nat; rewrite (where_from_absent _ _ _ Hn), Nat.add_0_r.
      repeat split; simpl; lia.
    + destruct (IH (S k)) as [E|(i & Hi & E & Hf)]; [now left|].
      right; exists (S i); rewrite E; simpl.
      repeat split; try lia; auto. f_equal; lia.
Qed.

Lemma filter_names_NoDup : NoDup filter_names.
Proof.
  replace filter_names with (nodup string_dec filter_names) by reflexivity.
  apply NoDup_nodup.
Qed.

Lemma where_filter_names f :
  where_eq f filter_names = [] \/
  exists i, (i < length filter_names)%nat /\ where_eq f filter_names = [i] /\
            nth_error filter_names i = Some f.
Proof.
  unfold where_eq.
  destruct (where_from_NoDup 0 f _ filter_names_NoDup) as [E|(i & Hi & E & Hf)];
    [now left | right; exists i; auto].
Qed.

Lemma where_band i :
  (i < length filter_names)%nat ->
  where_eq (nth i filter_names "") filter_names = [i].
Proof.
  intros H.
  do 24 (destruct i as [|i]; [reflexivity|]).
  simpl in H; lia.
Qed.

(** ** What a successful merge does *)

Lemma state_eta st :
  mkState (g_id st) (verbose st) (ids st) (used_filters st) (mags st)
          (mag_errs st) (catalogs st) (issued st) = st.
Proof. now destruct st. Qed.

Lemma put_array_nil {X} (a : list X) xs r :
  put_array a [] xs = Ok r -> r = a.
Proof.
  unfold put_array; destruct xs as [|x [|y xs]]; simpl; congruence.
Qed.

Lemma put_array_one {X} (a : list X) i xs r :
  put_array a [i] xs = Ok r ->
  exists x, xs = [x] /\ (i < length a)%nat /\ r = set_nth a i x.
Proof.
  unfold put_array; destruct xs as [|x [|y xs]]; simpl; try congruence.
  destruct (Nat.ltb_spec i (length a)); try congruence.
  intros [= <-]; eauto.
Qed.

Lemma add_mags_inv mag er filt st u st' :
  _add_mags mag er filt st = Ok (u, st') ->
  st' = st \/
  exists i m e x,
    where_eq filt filter_names = [i] /\
    nth_error (used_filters st) i = Some x /\ x <> 1 /\
    (i < length (mags st))%nat /\ (i < length (mag_errs st))%nat /\
    mag = [m] /\ er = [e] /\ st' = write i m e st.
Proof.
  unfold _add_mags, bind, get, lift, modify, ret.
  destruct (where_filter_names filt) as [E|(i & Hi & E & _)]; rewrite E; simpl.
  - destruct (put_array (mags st) [] mag) as [r1|] eqn:E1; try discriminate.
    simpl.
    destruct (put_array (mag_errs st) [] er) as [r2|] eqn:E2; try discriminate.
    apply put_array_nil in E1, E2; subst.
    intros [= <-]; left; now destruct st.
  - destruct (nth_error (used_filters st) i) as [x|] eqn:Ex; try discriminate.
    simpl. destruct (Z.eqb_spec x 1) as [->|Hx].
    + destruct (verbose st); intros [= <-]; now left.
    + destruct (Nat.ltb_spec i (length (used_filters st))); try discriminate.
      destruct (put_array (mags _) [i] mag) as [r1|] eqn:E1; try discriminate.
      simpl in *.
      destruct (put_array (mag_errs _) [i] er) as [r2|] eqn:E2; try discriminate.
      simpl in *.
      apply put_array_one in E1, E2.
      destruct E1 as (m & -> & Hm & ->), E2 as (e & -> & He & ->).
      intros [= <-]; right; exists i, m, e, x; repeat split; auto.
Qed.

Section Preserves.
Variable R : state -> state -> Prop.
Hypothesis R_refl : forall st, R st st.
Hypothesis R_trans : forall a b c, R a b -> R b c -> R a c.

Lemma preserves_ret {A} (a : A) : preserves R (ret a).
Proof. intros st a' st' [= _ <-]; apply R_refl. Qed.

Lemma preserves_raise {A} e : preserves R (@raise A e).
Proof. intros st a st' H; discriminate. Qed.

Lemma preserves_get : preserves R get.
Proof. intros st a st' [= _ <-]; apply R_refl. Qed.

Lemma preserves_lift {A} (r : result A) : preserves R (lift r).
Proof.
  intros st a st'; unfold lift; destruct r; intros [= _ <-]; apply R_refl.
Qed.

Lemma preserves_modify f : (forall st, R st (f st)) -> preserves R (modify f).
Proof. intros H st a st' [= _ <-]; apply H. Qed.

Lemma preserves_bind {A B} (m : M A) (k : A -> M B) :
  preserves R m -> (forall a, preserves R (k a)) -> preserves R (bind m k).
Proof.
  intros Hm Hk st b st'; unfold bind.
  destruct (m st) as [[a st1]|] eqn:E; try discriminate.
  intros H; eapply R_trans; [eapply Hm; eauto | eapply Hk; eauto].
Qed.

Lemma preserves_bind_lift {A B} (r : result A) (k : A -> M B) :
  (forall a, r = Ok a -> preserves R (k a)) -> preserves R (bind (lift r) k).
Proof.
  intros Hk st b st'; unfold bind, lift.
  destruct r as [a|]; try discriminate.
  intros H; eapply Hk; eauto.
Qed.

Lemma preserves_try {A} (m h : M A) handled :
  preserves R m -> preserves R h -> preserves R (try_except m handled h).
Proof.
  intros Hm Hh st a st'; unfold try_except.
  destruct (m st) as [[a1 st1]|e] eqn:E.
  - intros [= <- <-]; eapply Hm; eauto.
  - destruct (handled e); try discriminate. intros H; eapply Hh; eauto.
Qed.

Lemma preserves_for_each {A} (l : list A) body :
  (forall x, In x l -> preserves R (body x)) -> preserves R (for_each l body).
Proof.
  induction l as [|x l IH]; intros H; simpl.
  - apply preserves_ret.
  - apply preserves_bind; [apply H; now left|].
    intros _; apply IH; intros y Hy; apply H; now right.
Qed.
End Preserves.

Lemma steps_trans ok a b c : steps ok a b -> steps ok b c -> steps ok a c.
Proof.
  induction 1; auto. intros H2; eapply steps_cons; eauto.
Qed.

Lemma steps_one ok a b : step ok a b -> steps ok a b.
Proof. intros H; eapply steps_cons; [eauto | apply steps_nil]. Qed.

Lemma step_weaken (ok ok' : CatalogWarning -> Prop) a b :
  (forall w, ok w -> ok' w) -> step ok a b -> step ok' a b.
Proof.
  intros H [name rest st Hn|w st Hw|st i m e x Hx Hx1 Hm He Hne].
  - now apply step_advance.
  - apply step_warn; auto.
  - eapply step_write; eauto.
Qed.

Lemma steps_weaken (ok ok' : CatalogWarning -> Prop) a b :
  (forall w, ok w -> ok' w) -> steps ok a b -> steps ok' a b.
Proof.
  intros H; induction 1 as [|a b c Hab _ IH]; [apply steps_nil|].
  eapply steps_cons; [eapply step_weaken|]; eauto.
Qed.

Lemma unmasked_nonzero err e :
  is_masked err = false -> truth (col_is_zero err) = Ok false ->
  col_data err = [e] -> ~ (e == 0)%Q.
Proof.
  destruct err as [|[q|] [|c err]]; simpl; try discriminate.
  intros _ [= Hz] [= <-] H.
  apply Qeq_bool_iff in H; congruence.
Qed.

Section Trace.
Variable ok : CatalogWarning -> Prop.
Hypothesis ok_rejection : forall w, rejection w -> ok w.

Ltac pres :=
  first
    [ apply (preserves_ret _ (steps_nil ok))
    | apply preserves_raise
    | apply (preserves_get _ (steps_nil ok))
    | apply (preserves_lift _ (steps_nil ok))
    | apply (preserves_bind _ (steps_trans ok)) ].

Ltac pres_lift x H := apply (preserves_bind_lift (steps ok)); intros x H.

Lemma steps_warn w : ok w -> preserves (steps ok) (warn w).
Proof.
  intros Hw; apply preserves_modify; intros st.
  now apply steps_one, step_warn.
Qed.

Lemma steps_advance name rest :
  In name dispatched -> preserves (steps ok) (advance name rest).
Proof.
  intros Hn; apply preserves_modify; intros st.
  now apply steps_one, step_advance.
Qed.

Lemma steps_add_mags mag er filt :
  (forall e, er = [e] -> ~ (e == 0)%Q) ->
  preserves (steps ok) (_add_mags mag er filt).
Proof.
  intros He st u st' H.
  apply add_mags_inv in H.
  destruct H as [->|(i & m & e & x & _ & Hx & Hx1 & Hm & Hl & -> & -> & ->)].
  - apply steps_nil.
  - apply steps_one. eapply step_write; eauto.
Qed.

Lemma steps_retrieve_loop cat name its :
  In name dispatched -> preserves (steps ok) (retrieve_loop cat name its).
Proof.
  intros Hn.
  induction its as [|[[m e] f] rest IH]; simpl; [pres|].
  pres; [now apply steps_advance | intros _].
  pres; [pres | intros st].
  pres_lift u Hu. pres_lift b Hb. destruct b.
  { destruct (verbose st); pres. }
  pres_lift mag Hmag. pres_lift err Herr.
  destruct (is_masked mag);
    [apply steps_warn, ok_rejection; left; reflexivity|].
  destruct (is_masked err) eqn:Hmask;
    [apply steps_warn, ok_rejection; right; left; reflexivity|].
  pres_lift z Hz.
  destruct z; [apply steps_warn, ok_rejection; right; right; reflexivity|].
  pres; [|intros _; apply IH].
  apply steps_add_mags; intros e0; eapply unmasked_nonzero; eauto.
Qed.

Lemma steps_retrieve_from_cat cat name :
  In name dispatched -> preserves (steps ok) (_retrieve_from_cat cat name).
Proof.
  intros Hn. unfold _retrieve_from_cat.
  pres; [pres | intros st]. pres_lift entry He.
  now apply steps_retrieve_loop.
Qed.

Lemma steps_ids_item name : preserves (steps ok) (ids_item name).
Proof. unfold ids_item. pres; [pres | intros st]. pres. Qed.

Lemma steps_select_by cat column value name :
  In name dispatched ->
  preserves (steps ok) (select_by cat column value name).
Proof.
  intros Hn. unfold select_by. pres_lift col Hc. pres_lift selected Hs.
  now apply steps_retrieve_from_cat.
Qed.

Lemma steps_get_ascc cat : preserves (steps ok) (_get_ascc cat).
Proof.
  unfold _get_ascc. pres; [apply steps_ids_item | intros id].
  destruct (split "-" id) as [|t1 [|t2 [|t3 [|t4 l]]]];
    try apply preserves_raise.
  pres_lift c1 H1. pres_lift c2 H2. pres_lift c3 H3.
  pres_lift selected Hs.
  apply steps_retrieve_from_cat. simpl; tauto.
Qed.

Lemma steps_by_id name column (fmt : string -> string) cat :
  In name dispatched ->
  preserves (steps ok)
    (id <- ids_item name ;; select_by cat column (fmt id) name).
Proof.
  intros Hn.
  pres; [apply steps_ids_item | intros id; now apply steps_select_by].
Qed.

Variable c : string.
Hypothesis ok_absent : ok (mkWarning c 5).

Lemma steps_body cats : preserves (steps ok) (get_magnitudes_body cats c).
Proof.
  unfold get_magnitudes_body.
  pres; [pres | intros st]. pres_lift entry He.
  destruct (dict_in c (ids st)).
  - pres; [apply steps_ids_item | intros id].
    destruct (String.eqb id "skipped"); [pres|].
    pres.
    + apply preserves_try; [pres; [pres | intros t; pres]|].
      pres; [now apply steps_warn | intros _; pres].
    + intros [current_cat|]; [|pres].
      destruct (String.eqb c "APASS");
        [apply (steps_by_id "APASS" "recno" (fun x => x));
         simpl; tauto|].
      destruct (String.eqb c "Wise");
        [apply (steps_by_id "Wise" "AllWISE" (fun x => x));
         simpl; tauto|].
      destruct (String.eqb c "ASCC"); [apply steps_get_ascc|].
      destruct (String.eqb c "SDSS");
        [apply (steps_by_id "SDSS" "SDSS12" (fun x => x));
         simpl; tauto|].
      destruct (String.eqb c "Pan-STARRS");
        [apply (steps_by_id "Pan-STARRS" "objID" (fun x => x));
         simpl; tauto|].
      destruct (String.eqb c "Gaia");
        [apply (steps_by_id "Gaia" "DR2Name" (fun x => "Gaia DR2 " ++ x));
         simpl; tauto|].
      pres.
  - apply preserves_try.
    + pres_lift t Ht. pres.
    + destruct (verbose st); [now apply steps_warn | pres].
Qed.
End Trace.

Lemma steps_body_any cats c :
  preserves (steps any_warning) (get_magnitudes_body cats c).
Proof. apply steps_body; intros; exact I. Qed.

Lemma steps_get_magnitudes cats :
  preserves (steps any_warning) (get_magnitudes cats).
Proof.
  unfold get_magnitudes.
  apply (preserves_bind _ (steps_trans any_warning));
    [apply preserves_get, steps_nil | intros st].
  apply (preserves_for_each _ (steps_nil _) (steps_trans _)).
  intros c _; apply steps_body_any.
Qed.

Lemma locked_refl st : locked st st.
Proof. intros j _; reflexivity. Qed.

Lemma locked_trans a b c : locked a b -> locked b c -> locked a c.
Proof.
  intros H1 H2 j Hj.
  assert (Hb : is_used b j).
  { specialize (H1 j Hj). unfold slot, is_used in *. congruence. }
  rewrite (H2 j Hb); auto.
Qed.

Lemma slot_write_same i m e st :
  (i < length (used_filters st))%nat -> (i < length (mags st))%nat ->
  (i < length (mag_errs st))%nat ->
  slot (write i m e st) i = (Some 1, Some m, Some e).
Proof.
  intros; unfold slot, write; simpl. now rewrite !set_nth_same.
Qed.

Lemma slot_write_other i j m e st :
  j <> i -> slot (write i m e st) j = slot st j.
Proof.
  intros; unfold slot, write; simpl. rewrite !set_nth_other; auto.
Qed.

Lemma write_locked i m e x st :
  nth_error (used_filters st) i = Some x -> x <> 1 ->
  locked st (write i m e st).
Proof.
  intros Hx Hx1 j Hj. apply slot_write_other.
  intros ->. unfold is_used in Hj. congruence.
Qed.

Lemma same_vector_advanced name rest st :
  same_vector st (advanced name rest st).
Proof.
  unfold advanced.
  destruct (dict_get (catalogs st) name) as [[key z]|]; repeat split.
Qed.

Lemma same_vector_locked a b : same_vector a b -> locked a b.
Proof.
  intros (Hu & Hm & He) j _; unfold slot; now rewrite Hu, Hm, He.
Qed.

Lemma step_locked ok a b : step ok a b -> locked a b.
Proof.
  destruct 1 as [name rest st Hn|w st Hw|st i m e x Hx Hx1 _ _ _].
  - apply same_vector_locked, same_vector_advanced.
  - apply same_vector_locked; repeat split.
  - eapply write_locked; eauto.
Qed.

Lemma steps_locked ok a b : steps ok a b -> locked a b.
Proof.
  induction 1 as [|a b c Hab _ IH]; [apply locked_refl|].
  eapply locked_trans; [eapply step_locked|]; eauto.
Qed.

Lemma add_mags_locked mag er filt st st' :
  _add_mags mag er filt st = Ok (tt, st') -> locked st st'.
Proof.
  intros H; apply add_mags_inv in H.
  destruct H as [->|(i & m & e & x & _ & Hx & Hx1 & _ & _ & _ & _ & ->)].
  - apply locked_refl.
  - eapply write_locked; eauto.
Qed.

Lemma add_mags_used i st mag er :
  (i < length filter_names)%nat -> is_used st i ->
  _add_mags mag er (nth i filter_names "") st = Ok (tt, st).
Proof.
  intros Hi Hu. unfold _add_mags, bind, get, lift, ret.
  rewrite (where_band i Hi); simpl. unfold is_used in Hu; rewrite Hu; simpl.
  now destruct (verbose st).
Qed.

Lemma add_mags_unused i st m e :
  (i < length filter_names)%nat -> wf st -> ~ is_used st i ->
  _add_mags [m] [e] (nth i filter_names "") st = Ok (tt, write i m e st).
Proof.
  intros Hi (Lu & Lm & Le) Hu. unfold _add_mags, bind, get, lift, modify.
  rewrite (where_band i Hi); simpl.
  destruct (nth_error (used_filters st) i) as [x|] eqn:Ex.
  2:{ apply nth_error_None in Ex; lia. }
  simpl. destruct (Z.eqb_spec x 1) as [->|Hx].
  { exfalso; apply Hu; exact Ex. }
  unfold put_array; simpl.
  destruct (Nat.ltb_spec i (length (used_filters st))); [|lia].
  destruct (Nat.ltb_spec i (length (mags st))); [|lia]. simpl.
  destruct (Nat.ltb_spec i (length (mag_errs st))); [|lia].
  reflexivity.
Qed.

(** C1. For a band [i] of the registry, [_add_mags] changes nothing when
    the flag of [i] is already 1, whatever it is given; otherwise it sets
    the flag to 1 and stores the given magnitude and error at [i], leaving
    the other slots alone.  A slot whose flag is 1 is therefore the same
    after any call of [_add_mags], after the processing of any catalogue
    and after a whole [get_magnitudes]: the flag never goes back and the
    first writer of a band is its only one. *)
Theorem add_mags_first_writer_wins (i : nat) (st : state) (m e : Q) :
  (i < length filter_names)%nat -> wf st ->
  let filt := nth i filter_names "" in
  (is_used st i -> forall mag er, _add_mags mag er filt st = Ok (tt, st)) /\
  (~ is_used st i ->
   exists st', _add_mags [m] [e] filt st = Ok (tt, st') /\
               slot st' i = (Some 1, Some m, Some e) /\
               forall j, j <> i -> slot st' j = slot st j) /\
  (forall mag er f st', _add_mags mag er f st = Ok (tt, st') -> locked st st') /\
  (forall cats c st',
      get_magnitudes_body cats c st = Ok (tt, st') -> locked st st') /\
  (forall cats st', get_magnitudes cats st = Ok (tt, st') -> locked st st').
Proof.
  intros Hi Hwf filt. repeat split.
  - intros Hu mag er; now apply add_mags_used.
  - intros Hu. exists (write i m e st). destruct Hwf as (Lu & Lm & Le).
    split; [apply add_mags_unused; unfold wf; auto|].
    split; [apply slot_write_same; lia|].
    intros j Hj; now apply slot_write_other.
  - intros mag er f st'; apply add_mags_locked.
  - intros cats c st' H; eapply steps_locked, steps_body_any; eauto.
  - intros cats st' H; eapply steps_locked, steps_get_magnitudes; eauto.
Qed.

Lemma add_mags_first_writer_wins_witness :
  (6 < length filter_names)%nat /\ wf blank /\
  let filt := nth 6 filter_names "" in
  (is_used blank 6 ->
   forall mag er, _add_mags mag er filt blank = Ok (tt, blank)) /\
  (~ is_used blank 6 ->
   exists st', _add_mags [21 # 2] [1 # 100] filt blank = Ok (tt, st') /\
               slot st' 6 = (Some 1, Some (21 # 2), Some (1 # 100)) /\
               forall j, j <> 6%nat -> slot st' j = slot blank j) /\
  (forall mag er f st',
      _add_mags mag er f blank = Ok (tt, st') -> locked blank st') /\
  (forall cats c st',
      get_magnitudes_body cats c blank = Ok (tt, st') -> locked blank st') /\
  (forall cats st',
      get_magnitudes cats blank = Ok (tt, st') -> locked blank st').
Proof.
  assert (H1 : (6 < length filter_names)%nat) by (simpl; lia).
  assert (H2 : wf blank) by (repeat split).
  exact (conj H1 (conj H2
           (add_mags_first_writer_wins 6 blank (21 # 2) (1 # 100) H1 H2))).
Defined.

(** ** Errors of used bands *)

Lemma same_vector_refl st : same_vector st st.
Proof. repeat split. Qed.

Lemma same_vector_trans a b c :
  same_vector a b -> same_vector b c -> same_vector a c.
Proof.
  intros (H1 & H2 & H3) (H4 & H5 & H6); repeat split; congruence.
Qed.

Lemma same_gaia_query_loop bn cs : forall cat IDS,
  preserves same_vector (gaia_query_loop bn cs cat IDS).
Proof.
  induction cs as [|c cs IH]; intros cat IDS; simpl.
  - apply preserves_ret, same_vector_refl.
  - destruct (bn c) as [|r0 r]; [|apply IH].
    apply (preserves_bind _ same_vector_trans);
      [apply preserves_get, same_vector_refl | intros st].
    apply (preserves_bind _ same_vector_trans); [|intros _; apply IH].
    destruct (verbose st); [|apply preserves_ret, same_vector_refl].
    apply preserves_modify; intros s; repeat split.
Qed.

Lemma same_gaia_query bn : preserves same_vector (gaia_query bn).
Proof.
  unfold gaia_query.
  apply (preserves_bind _ same_vector_trans);
    [apply preserves_get, same_vector_refl | intros st].
  apply (preserves_bind _ same_vector_trans);
    [apply same_gaia_query_loop | intros IDS].
  apply preserves_modify; intros s; repeat split.
Qed.

Lemma init_zero gid v bn st st0 :
  Librarian_init gid v bn st = Ok (tt, st0) ->
  used_filters st0 = repeat 0 (length filter_names) /\
  mags st0 = repeat 0%Q (length filter_names) /\
  mag_errs st0 = repeat 0%Q (length filter_names).
Proof.
  unfold Librarian_init, bind, modify. intros H.
  apply same_gaia_query in H. destruct H as (H1 & H2 & H3). auto.
Qed.

Lemma init_unused gid v bn st st0 :
  Librarian_init gid v bn st = Ok (tt, st0) -> forall i, ~ is_used st0 i.
Proof.
  intros H i Hu. apply init_zero in H. destruct H as (H & _).
  unfold is_used in Hu. rewrite H in Hu.
  apply nth_error_In, repeat_spec in Hu. discriminate.
Qed.

Lemma same_vector_nonzero a b :
  same_vector a b -> errors_nonzero a -> errors_nonzero b.
Proof.
  intros (Hu & Hm & He) Ha j Hj.
  unfold is_used in *. rewrite Hu in Hj. rewrite He. now apply Ha.
Qed.

Lemma step_nonzero ok a b :
  step ok a b -> errors_nonzero a -> errors_nonzero b.
Proof.
  destruct 1 as [name rest st Hn|w st Hw|st i m e x Hx Hx1 Hlm Hle Hne].
  1: apply same_vector_nonzero, same_vector_advanced.
  1: apply same_vector_nonzero; repeat split.
  intros Ha j Hj.
  destruct (Nat.eq_dec j i) as [->|Hji].
  - exists e; split; auto. unfold write; simpl. now apply set_nth_same.
  - unfold is_used, write in *; simpl in *.
    rewrite set_nth_other in Hj by auto. rewrite set_nth_other by auto.
    now apply Ha.
Qed.

Lemma steps_nonzero ok a b :
  steps ok a b -> errors_nonzero a -> errors_nonzero b.
Proof.
  induction 1 as [|a b c Hab _ IH]; auto.
  intros Ha; apply IH; eapply step_nonzero; eauto.
Qed.

(** C3, as the code has it.  In a resolution (a new instance, then
    [get_magnitudes]) that ends without an exception, the arrays start
    with no band used and change only by writes of a band whose flag is
    not 1 with an error different from zero ([steps]); so every band that
    is used at the end has an error different from zero. *)
Theorem used_error_nonzero gid v bn cats st st' :
  run gid v bn cats st = Ok (tt, st') ->
  (exists st0, Librarian_init gid v bn st = Ok (tt, st0) /\
               (forall i, ~ is_used st0 i) /\ steps any_warning st0 st') /\
  errors_nonzero st'.
Proof.
  unfold run, bind. intros H.
  destruct (Librarian_init gid v bn st) as [[[] st0]|] eqn:Hinit;
    try discriminate.
  assert (Hs : steps any_warning st0 st') by (eapply steps_get_magnitudes; eauto).
  assert (H0 : forall i, ~ is_used st0 i) by (eapply init_unused; eauto).
  split; [exists st0; auto|].
  apply (steps_nonzero _ _ _ Hs). intros i Hi. now apply H0 in Hi.
Qed.

Lemma used_error_nonzero_witness :
  exists st',
    run "42" false no_neighbour [("I/345/gaia2", gaia_negative_error)] fresh
      = Ok (tt, st') /\
    ((exists st0,
         Librarian_init "42" false no_neighbour fresh = Ok (tt, st0) /\
         (forall i, ~ is_used st0 i) /\ steps any_warning st0 st') /\
     errors_nonzero st').
Proof.
  eexists. split; [vm_compute; reflexivity|].
  apply (used_error_nonzero "42" false no_neighbour
           [("I/345/gaia2", gaia_negative_error)] fresh).
  vm_compute; reflexivity.
Defined.

(** C3, as stated, fails: a Gaia row whose G error is -0.01 is accepted,
    and band 6 (GaiaDR2v2_G) ends up used with that error. *)
Lemma negative_error_is_accepted :
  exists st',
    run "42" false no_neighbour [("I/345/gaia2", gaia_negative_error)] fresh
      = Ok (tt, st') /\
    is_used st' 6 /\
    nth_error (mag_errs st') 6 = Some (-1 # 100)%Q /\
    ~ (0 < -1 # 100)%Q /\
    ~ errors_positive st'.
Proof.
  eexists. split; [vm_compute; reflexivity|].
  split; [reflexivity|]. split; [reflexivity|].
  split; [intros H; discriminate H|].
  intros H. specialize (H 6%nat (-1 # 100)%Q eq_refl eq_refl).
  discriminate H.
Qed.

(** ** A rejected triple ends the catalogue *)

(** C2 on the code.  An APASS row with all five bands valid populates
    five bands.  When its first triple is rejected (V magnitude masked,
    V error masked or V error zero) the warning is issued and the loop
    returns: the four other triples, all valid, stay in the iterator and
    no band is populated. *)
Theorem rejected_triple_ends_catalogue :
  let cats v ev := [("II/336/apass9", apass_table "77" v ev)] in
  let left_over :=
    Some ("II/336/apass9",
          [("Bmag", "e_Bmag", "GROUND_JOHNSON_B");
           ("g_mag", "e_g_mag", "SDSS_g"); ("r_mag", "e_r_mag", "SDSS_r");
           ("i_mag", "e_i_mag", "SDSS_i")]) in
  (exists st,
      run "42" false only_apass (cats (Some (12 # 1)) (Some (1 # 100))) fresh
        = Ok (tt, st) /\
      used_filters st = flags [4; 5; 15; 16; 17]%nat) /\
  (exists st,
      run "42" false only_apass (cats None (Some (1 # 100))) fresh
        = Ok (tt, st) /\
      used_filters st = flags [] /\
      issued st = [mkWarning "Vmag" 2; mkWarning "Gaia" 5] /\
      dict_get (catalogs st) "APASS" = left_over) /\
  (exists st,
      run "42" false only_apass (cats (Some (12 # 1)) None) fresh
        = Ok (tt, st) /\
      used_filters st = flags [] /\
      issued st = [mkWarning "Vmag" 3; mkWarning "Gaia" 5] /\
      dict_get (catalogs st) "APASS" = left_over) /\
  (exists st,
      run "42" false only_apass (cats (Some (12 # 1)) (Some (0 # 1))) fresh
        = Ok (tt, st) /\
      used_filters st = flags [] /\
      issued st = [mkWarning "Vmag" 4; mkWarning "Gaia" 5] /\
      dict_get (catalogs st) "APASS" = left_over).
Proof.
  repeat split; eexists; (split; [vm_compute; reflexivity|]);
    repeat split; reflexivity.
Qed.

(** ** A band that is already used *)

Lemma dict_get_set {V} (d : list (string * V)) k v v0 :
  dict_get d k = Some v0 -> dict_get (dict_set d k v) k = Some v.
Proof.
  induction d as [|[k' v'] d IH]; simpl; [discriminate|].
  destruct (String.eqb_spec k k') as [->|Hk]; simpl.
  - now rewrite String.eqb_refl.
  - destruct (String.eqb_spec k k'); [contradiction|]. auto.
Qed.

(** C4, as the code has it.  When the loop of [_retrieve_from_cat] stands
    before a triple whose band is already used, it returns at once: the
    three arrays are left as they are and the remaining triples stay in
    the iterator, unread.  With [verbose] off no warning is issued. *)
Theorem duplicate_band_stops_catalogue cat name m e f rest st i :
  where_eq f filter_names = [i] -> is_used st i ->
  exists st',
    retrieve_loop cat name ((m, e, f) :: rest) st = Ok (tt, st') /\
    same_vector st st' /\
    (forall key its, dict_get (catalogs st) name = Some (key, its) ->
                     dict_get (catalogs st') name = Some (key, rest)) /\
    (verbose st = false -> issued st' = issued st).
Proof.
  intros Hw Hu. unfold is_used in Hu.
  simpl. unfold bind, advance, advanced, modify, get, lift. rewrite Hw; simpl.
  destruct (dict_get (catalogs st) name) as [[key its]|] eqn:Hc; simpl;
    rewrite Hu; simpl.
  - eexists; split; [destruct (verbose st); reflexivity|].
    repeat split; simpl; auto.
    intros key' its' [= <- <-]. eapply dict_get_set; eauto.
  - eexists; split; [destruct (verbose st); reflexivity|].
    repeat split; auto. intros key its H; discriminate.
Qed.

Lemma duplicate_band_stops_catalogue_witness :
  let st := write 4 (12 # 1) (1 # 100) blank in
  let rest := [("Bmag", "e_Bmag", "GROUND_JOHNSON_B");
               ("g_mag", "e_g_mag", "SDSS_g")] in
  where_eq "GROUND_JOHNSON_V" filter_names = [4%nat] /\ is_used st 4 /\
  exists st',
    retrieve_loop (apass_table "77" (Some (12 # 1)) (Some (1 # 100))) "APASS"
      (("Vmag", "e_Vmag", "GROUND_JOHNSON_V") :: rest) st = Ok (tt, st') /\
    same_vector st st' /\
    (forall key its, dict_get (catalogs st) "APASS" = Some (key, its) ->
                     dict_get (catalogs st') "APASS" = Some (key, rest)) /\
    (verbose st = false -> issued st' = issued st).
Proof.
  intros st rest.
  assert (H1 : where_eq "GROUND_JOHNSON_V" filter_names = [4%nat])
    by reflexivity.
  assert (H2 : is_used st 4) by reflexivity.
  exact (conj H1 (conj H2
           (duplicate_band_stops_catalogue
              (apass_table "77" (Some (12 # 1)) (Some (1 # 100))) "APASS"
              "Vmag" "e_Vmag" "GROUND_JOHNSON_V" rest st 4 H1 H2))).
Defined.

(** C4, as stated, fails.  With [verbose] off, ASCC populates band 4
    (GROUND_JOHNSON_V); the extractor then meets that band as the first
    triple of APASS and issues no warning at all. *)
Lemma duplicate_band_is_silent :
  let cats := [("I/280B/ascc", ascc_table);
               ("II/336/apass9",
                apass_table "77" (Some (12 # 1)) (Some (1 # 100)))] in
  exists st1 st2,
    (Librarian_init "42" false tycho_and_apass ;;;
     get_magnitudes_body cats "ASCC") fresh = Ok (tt, st1) /\
    verbose st1 = false /\
    where_eq "GROUND_JOHNSON_V" filter_names = [4%nat] /\
    is_used st1 4 /\
    dict_get (catalogs st1) "APASS" =
      Some ("II/336/apass9", zip apass_mags apass_errs apass_filters) /\
    get_magnitudes_body cats "APASS" st1 = Ok (tt, st2) /\
    issued st1 = [] /\ issued st2 = [] /\
    ~ In (mkWarning "GROUND_JOHNSON_V" 6) (issued st2).
Proof.
  intros cats. eexists. eexists.
  split; [vm_compute; reflexivity|].
  split; [reflexivity|]. split; [reflexivity|]. split; [reflexivity|].
  split; [reflexivity|]. split; [vm_compute; reflexivity|].
  split; [reflexivity|]. split; [reflexivity|]. intros [].
Qed.

(** ** A second resolution *)

(** C5 on the code.  The triples of a catalogue are a [zip] iterator kept
    in the class attribute [catalogs]; a resolution consumes it, and the
    next one, in the same interpreter, finds what is left.
    (a) Gaia row all valid: the first resolution populates the three Gaia
    bands, the second one, a new instance with the same inputs, none.
    (b) BP magnitude masked: the first resolution populates G, warns and
    leaves RP in the iterator; the second one populates RP and issues no
    warning.  (c) [get_magnitudes] called again on the instance of (b)
    adds RP to the vector it returned before. *)
Theorem second_resolution_differs :
  let valid := [("I/345/gaia2", gaia_table (Some (11 # 1)))] in
  let masked := [("I/345/gaia2", gaia_table None)] in
  (exists st1 st2,
      run "42" false no_neighbour valid fresh = Ok (tt, st1) /\
      run "42" false no_neighbour valid st1 = Ok (tt, st2) /\
      used_filters st1 = flags [6; 7; 8]%nat /\
      used_filters st2 = flags [] /\
      dict_get (catalogs st1) "Gaia" = Some ("I/345/gaia2", [])) /\
  (exists st1 st2 st3,
      run "42" false no_neighbour masked fresh = Ok (tt, st1) /\
      run "42" false no_neighbour masked st1 = Ok (tt, st2) /\
      get_magnitudes masked st1 = Ok (tt, st3) /\
      used_filters st1 = flags [6]%nat /\
      issued st1 = [mkWarning "BPmag" 2] /\
      used_filters st2 = flags [7]%nat /\
      issued st2 = issued st1 /\
      used_filters st3 = flags [6; 7]%nat /\
      issued st3 = issued st1).
Proof.
  intros valid masked. split.
  - do 2 eexists.
    split; [vm_compute; reflexivity|]. split; [vm_compute; reflexivity|].
    repeat split.
  - do 3 eexists.
    split; [vm_compute; reflexivity|]. split; [vm_compute; reflexivity|].
    split; [vm_compute; reflexivity|]. repeat split.
Qed.

(** ** The catalogue 2MASS *)

(** C6 on the code.  The source is matched in 2MASS and the 2MASS table
    holds its row, with valid J, H and K: [get_magnitudes] populates no
    band and leaves the 2MASS iterator whole, while [_get_2mass], were it
    called on that table, would populate the three bands. *)
Theorem matched_2mass_is_skipped :
  let cats := [("II/246/out", twomass_table)] in
  (exists st,
      run "42" false only_tmass cats fresh = Ok (tt, st) /\
      dict_get (ids st) "2MASS" = Some "J0042" /\
      used_filters st = flags [] /\
      dict_get (catalogs st) "2MASS" =
        Some ("II/246/out", zip twomass_mags twomass_errs twomass_filters)) /\
  (exists st,
      (Librarian_init "42" false only_tmass ;;; _get_2mass twomass_table)
        fresh = Ok (tt, st) /\
      used_filters st = flags [0; 1; 2]%nat).
Proof.
  intros cats. split; eexists; (split; [vm_compute; reflexivity|]);
    repeat split.
Qed.

(** ** Failures that end the run *)

(** C8 on the code.  A table that the query service did not return is
    skipped with a warning.  But the selectors and the extractor run
    outside any handler: an APASS table without the row of the source, an
    APASS table without the column Vmag, and a Tycho-2 identifier that
    does not have three pieces each end [get_magnitudes] with an
    exception, and no vector is returned. *)
Theorem selection_failure_aborts_run :
  (exists st,
      run "42" false only_apass [] fresh = Ok (tt, st) /\
      used_filters st = flags [] /\
      issued st = [mkWarning "APASS" 5; mkWarning "Gaia" 5]) /\
  run "42" false only_apass
      [("II/336/apass9", apass_table "78" (Some (12 # 1)) (Some (1 # 100)))]
      fresh = Raise ValueError /\
  run "42" false only_apass [("II/336/apass9", apass_without_Vmag)] fresh
    = Raise KeyError /\
  run "42" false short_tycho [("I/280B/ascc", ascc_table)] fresh
    = Raise ValueError.
Proof.
  split; [eexists; split; [vm_compute; reflexivity | repeat split]|].
  repeat split; vm_compute; reflexivity.
Qed.

(** ** What a run leaves alone *)

Lemma dict_get_set_other {V} (d : list (string * V)) k k' v :
  k <> k' -> dict_get (dict_set d k' v) k = dict_get d k.
Proof.
  intros Hk. induction d as [|[k0 v0] d IH]; simpl.
  - destruct (String.eqb_spec k k'); [contradiction | reflexivity].
  - destruct (String.eqb_spec k' k0) as [->|H0]; simpl.
    + destruct (String.eqb_spec k k0); [contradiction | reflexivity].
    + destruct (String.eqb_spec k k0); auto.
Qed.

Lemma frame_refl ok a : frame ok a a.
Proof.
  repeat split. exists []; split; [now rewrite app_nil_r | constructor].
Qed.

Lemma frame_trans ok a b c : frame ok a b -> frame ok b c -> frame ok a c.
Proof.
  intros (I1 & V1 & C1 & ws1 & W1 & F1) (I2 & V2 & C2 & ws2 & W2 & F2).
  repeat split; try congruence.
  - intros k Hk. rewrite C2, C1; auto.
  - exists (ws1 ++ ws2)%list; split.
    + now rewrite W2, W1, app_assoc.
    + apply Forall_app; auto.
Qed.

Lemma step_frame ok a b : step ok a b -> frame ok a b.
Proof.
  destruct 1 as [name rest st Hn|w st Hw|st i m e x Hx Hx1 _ _ _].
  - unfold advanced.
    destruct (dict_get (catalogs st) name) as [[key z]|]; [|apply frame_refl].
    repeat split; simpl.
    + intros k Hk. apply dict_get_set_other. intros ->; contradiction.
    + exists []; split; [now rewrite app_nil_r | constructor].
  - repeat split. exists [w]; split; [reflexivity | repeat constructor; auto].
  - repeat split. exists []; split; [now rewrite app_nil_r | constructor].
Qed.

Lemma steps_frame ok a b : steps ok a b -> frame ok a b.
Proof.
  induction 1 as [|a b c Hab _ IH]; [apply frame_refl|].
  eapply frame_trans; [eapply step_frame|]; eauto.
Qed.

(** ** The identifier resolution in closed form *)

Lemma init_closed_form gid v bn st :
  Librarian_init gid v bn st =
  Ok (tt, mkState gid v (resolved_ids bn gid)
                  (repeat 0 (length filter_names))
                  (repeat 0%Q (length filter_names))
                  (repeat 0%Q (length filter_names))
                  (catalogs st)
                  (issued st ++ if v then no_match_warnings bn else [])%list).
Proof.
  unfold Librarian_init, gaia_query, resolved_ids, no_match_warnings,
    resolved, bind, modify, get, warn, warned, ret, set_ids, set_issued.
  simpl.
  destruct (bn "tycho2"), (bn "panstarrs1"), (bn "sdssdr9"),
    (bn "allwise"), (bn "tmass"), (bn "apassdr9"), v; simpl;
    rewrite <- ?app_assoc, ?app_nil_r; reflexivity.
Qed.

Lemma no_match_once bn c cat :
  In (c, cat) neighbour_tables -> bn c = [] ->
  count_warning (mkWarning cat 5) (no_match_warnings bn) = 1%nat /\
  forall gid, dict_get (resolved_ids bn gid) cat = Some "skipped".
Proof.
  unfold no_match_warnings, resolved_ids, resolved; simpl.
  intros [H|[H|[H|[H|[H|[H|[]]]]]]] Hbn; injection H as <- <-;
    rewrite Hbn;
    destruct (bn "tycho2"), (bn "panstarrs1"), (bn "sdssdr9"),
      (bn "allwise"), (bn "tmass"), (bn "apassdr9");
    try discriminate Hbn; split; try intros gid; reflexivity.
Qed.

(** ** A catalogue without a cross-match *)

Lemma body_skipped cats cat st entry :
  dict_get (ids st) cat = Some "skipped" ->
  dict_get (catalogs st) cat = Some entry ->
  get_magnitudes_body cats cat st = Ok (tt, st).
Proof.
  intros Hi Hc.
  unfold get_magnitudes_body, ids_item, bind, get, lift, getitem, dict_in.
  rewrite Hc; simpl. repeat (rewrite Hi; simpl). reflexivity.
Qed.

Lemma body_skipped_inv cats cat st st1 :
  dict_get (ids st) cat = Some "skipped" ->
  get_magnitudes_body cats cat st = Ok (tt, st1) -> st1 = st.
Proof.
  intros Hi H.
  destruct (dict_get (catalogs st) cat) as [entry|] eqn:Hc.
  - rewrite (body_skipped cats cat st entry Hi Hc) in H. congruence.
  - unfold get_magnitudes_body, bind, get, lift, getitem in H.
    rewrite Hc in H. discriminate.
Qed.

Lemma warning_of_other c cat : c <> cat -> ~ warning_of c (mkWarning cat 5).
Proof.
  intros Hc [H|[H|[H|H]]]; try discriminate H.
  injection H as H; congruence.
Qed.

Lemma loop_silent_on_skipped cat cats keys : forall st st',
  dict_get (ids st) cat = Some "skipped" ->
  for_each keys (get_magnitudes_body cats) st = Ok (tt, st') ->
  exists ws, issued st' = (issued st ++ ws)%list /\
             ~ In (mkWarning cat 5) ws.
Proof.
  induction keys as [|c keys IH]; intros st st' Hi; simpl.
  - intros [= <-]. exists []; split; [now rewrite app_nil_r | intros []].
  - unfold bind.
    destruct (get_magnitudes_body cats c st) as [[[] st1]|] eqn:Hb;
      try discriminate.
    intros Hrest. destruct (String.eqb_spec c cat) as [->|Hc].
    + apply body_skipped_inv in Hb; auto. subst st1. eauto.
    + assert (Hs : steps (warning_of c) st st1).
      { eapply (steps_body (warning_of c)); eauto.
        - intros w Hw; now right.
        - now left. }
      apply steps_frame in Hs. destruct Hs as (I1 & _ & _ & ws1 & W1 & F1).
      rewrite <- I1 in Hi.
      destruct (IH st1 st' Hi Hrest) as (ws2 & W2 & N2).
      exists (ws1 ++ ws2)%list. split; [now rewrite W2, W1, app_assoc|].
      intros Hin. apply in_app_or in Hin. destruct Hin as [Hin|Hin]; auto.
      rewrite Forall_forall in F1.
      apply (warning_of_other c cat Hc). now apply F1.
Qed.

(** C7, as the code has it.  When the neighbour table [c] of catalogue
    [cat] returns nothing, the constructor records "skipped" for [cat]
    and issues the warning ([cat], 5) once if [verbose] is on and not at
    all if it is off.  In [get_magnitudes] the processing of [cat] then
    changes nothing, and the whole of [get_magnitudes] issues no warning
    ([cat], 5). *)
Theorem no_match_warns_only_when_verbose gid v bn st c cat :
  In (c, cat) neighbour_tables -> bn c = [] ->
  exists st0 ws,
    Librarian_init gid v bn st = Ok (tt, st0) /\
    dict_get (ids st0) cat = Some "skipped" /\
    issued st0 = (issued st ++ ws)%list /\
    count_warning (mkWarning cat 5) ws = (if v then 1 else 0)%nat /\
    (forall cats st1 entry,
        dict_get (ids st1) cat = Some "skipped" ->
        dict_get (catalogs st1) cat = Some entry ->
        get_magnitudes_body cats cat st1 = Ok (tt, st1)) /\
    (forall cats st',
        get_magnitudes cats st0 = Ok (tt, st') ->
        exists ws', issued st' = (issued st0 ++ ws')%list /\
                    ~ In (mkWarning cat 5) ws').
Proof.
  intros Hin Hbn.
  destruct (no_match_once bn c cat Hin Hbn) as (Hcount & Hid).
  eexists. exists (if v then no_match_warnings bn else []).
  split; [apply init_closed_form|]. simpl.
  split; [apply Hid|]. split; [reflexivity|].
  split; [destruct v; [exact Hcount | reflexivity]|].
  split; [intros cats st1 entry; apply body_skipped|].
  intros cats st'. unfold get_magnitudes, bind, get.
  apply loop_silent_on_skipped. simpl. apply Hid.
Qed.

Lemma no_match_warns_only_when_verbose_witness :
  In ("tycho2", "ASCC") neighbour_tables /\ no_neighbour "tycho2" = [] /\
  exists st0 ws,
    Librarian_init "42" false no_neighbour fresh = Ok (tt, st0) /\
    dict_get (ids st0) "ASCC" = Some "skipped" /\
    issued st0 = (issued fresh ++ ws)%list /\
    count_warning (mkWarning "ASCC" 5) ws = 0%nat /\
    (forall cats st1 entry,
        dict_get (ids st1) "ASCC" = Some "skipped" ->
        dict_get (catalogs st1) "ASCC" = Some entry ->
        get_magnitudes_body cats "ASCC" st1 = Ok (tt, st1)) /\
    (forall cats st',
        get_magnitudes cats st0 = Ok (tt, st') ->
        exists ws', issued st' = (issued st0 ++ ws')%list /\
                    ~ In (mkWarning "ASCC" 5) ws').
Proof.
  assert (H1 : In ("tycho2", "ASCC") neighbour_tables) by (left; reflexivity).
  assert (H2 : no_neighbour "tycho2" = []) by reflexivity.
  exact (conj H1 (conj H2
           (no_match_warns_only_when_verbose
              "42" false no_neighbour fresh "tycho2" "ASCC" H1 H2))).
Defined.

(** C7, as stated, fails.  With [verbose] off and no neighbour table
    knowing the source, ASCC is recorded as "skipped" and neither the
    constructor nor [get_magnitudes] issues any warning for it. *)
Lemma no_match_is_silent_when_quiet :
  exists st',
    run "42" false no_neighbour
        [("I/345/gaia2", gaia_table (Some (11 # 1)))] fresh = Ok (tt, st') /\
    dict_get (ids st') "ASCC" = Some "skipped" /\
    issued st' = [] /\
    count_warning (mkWarning "ASCC" 5) (issued st') <> 1%nat.
Proof.
  eexists. split; [vm_compute; reflexivity|].
  repeat split. discriminate.
Qed.

(** ** The selector of ASCC *)

Lemma col_eq_nth col v i :
  nth_error (col_eq col v) i = Some true <-> nth_error col i = Some v.
Proof.
  unfold col_eq. rewrite nth_error_map.
  destruct (nth_error col i) as [x|]; simpl; [|split; discriminate].
  destruct (String.eqb_spec x v) as [->|Hx]; split; auto;
    intros [= H]; congruence.
Qed.

Lemma mask_mul_nth m1 m2 i :
  nth_error (mask_mul m1 m2) i = Some true <->
  nth_error m1 i = Some true /\ nth_error m2 i = Some true.
Proof.
  revert m2 i; induction m1 as [|b1 m1 IH]; intros [|b2 m2] [|i]; simpl;
    try (split; [discriminate | intros [H1 H2]; discriminate]).
  - destruct b1, b2; simpl; split; auto; try discriminate;
      intros [H1 H2]; discriminate.
  - apply IH.
Qed.

Lemma select_In {X} (mask : list bool) (col : list X) x :
  In x (select mask col) <->
  exists i, nth_error mask i = Some true /\ nth_error col i = Some x.
Proof.
  revert col; induction mask as [|b mask IH]; intros [|y col]; simpl.
  - split; [intros [] | intros ([|i] & H & _); discriminate].
  - split; [intros [] | intros ([|i] & H & _); discriminate].
  - split; [intros [] | intros ([|i] & _ & H); discriminate].
  - destruct b; simpl.
    + split.
      * intros [->|H]; [exists 0%nat; auto|].
        apply IH in H. destruct H as (i & H1 & H2). exists (S i); auto.
      * intros ([|i] & H1 & H2); simpl in *.
        -- left; congruence.
        -- right; apply IH; eauto.
    + split.
      * intros H. apply IH in H. destruct H as (i & H1 & H2).
        exists (S i); auto.
      * intros ([|i] & H1 & H2); simpl in *; [discriminate|].
        apply IH; eauto.
Qed.

(** C9 on the code.  The pieces of the identifier are bytes, and
    [_get_ascc] compares the TYC columns with them as they are.  On the
    table of the catalogue, whose TYC columns are numeric, none of the
    three comparisons is made row by row, the mask is the integer 0 and
    the extractor receives row 0, which is here the star 99-888-2 and
    agrees with the identifier 12-345-1 on no component: its V magnitude
    9 is what band 4 (GROUND_JOHNSON_V) gets, and the row of 12-345-1 is
    not selected.  With the same rows in text columns the comparisons are
    made row by row and band 4 gets the magnitude 12 of the row that
    agrees on all three components. *)
Theorem ascc_numeric_columns_select_row_0 :
  dict_get (ids with_tycho) "ASCC" = Some "12-345-1" /\
  (exists st,
      _get_ascc ascc_numeric with_tycho = Ok (tt, st) /\
      slot st 4 = (Some 1, Some (9 # 1)%Q, Some (1 # 100)%Q) /\
      used_filters st = flags [0; 1; 2; 4; 5]%nat) /\
  (exists st,
      _get_ascc ascc_two_rows with_tycho = Ok (tt, st) /\
      slot st 4 = (Some 1, Some (12 # 1)%Q, Some (1 # 100)%Q) /\
      used_filters st = flags [0; 1; 2; 4; 5]%nat).
Proof.
  split; [reflexivity|].
  split; eexists; (split; [vm_compute; reflexivity | split; reflexivity]).
Qed.

(** With numeric TYC columns the table that [_get_ascc] hands over does
    not depend on the identifier at all. *)
Lemma ascc_numeric_ignores_identifier cat st id t1 t2 t3 l1 l2 l3 :
  dict_get (ids st) "ASCC" = Some id -> split "-" id = [t1; t2; t3] ->
  any_col cat "TYC1" = Ok (NumColumn l1) ->
  any_col cat "TYC2" = Ok (NumColumn l2) ->
  any_col cat "TYC3" = Ok (NumColumn l3) ->
  _get_ascc cat st =
  (selected <- lift (getitem_mask cat MaskZero) ;;
   _retrieve_from_cat selected "ASCC") st.
Proof.
  intros Hid Hs H1 H2 H3.
  unfold _get_ascc, ids_item, bind, get, lift, getitem.
  rewrite Hid; simpl. rewrite Hs, H1, H2, H3. reflexivity.
Qed.

(** ** The catalogues 2MASS and GALEX *)

Lemma not_dispatched c : c = "2MASS" \/ c = "GALEX" -> ~ In c dispatched.
Proof.
  intros [-> | ->] H; simpl in H;
    repeat (destruct H as [H|H]; [discriminate H|]); exact H.
Qed.

Lemma body_not_dispatched cats c st entry :
  c = "2MASS" \/ c = "GALEX" -> dict_get (catalogs st) c = Some entry ->
  (exists st', get_magnitudes_body cats c st = Ok (tt, st') /\
               same_vector st st' /\ catalogs st' = catalogs st) /\
  (dict_in c (ids st) = false ->
   get_magnitudes_body cats c st =
     Ok (tt, if verbose st then warned (mkWarning c 5) st else st)).
Proof.
  intros Hc He.
  unfold get_magnitudes_body, ids_item, bind, get, lift, getitem.
  rewrite He; simpl.
  destruct (dict_in c (ids st)) eqn:Hin.
  - split; [|discriminate].
    unfold dict_in in Hin.
    destruct (dict_get (ids st) c) as [id|]; [|discriminate]; simpl.
    destruct (String.eqb id "skipped");
      [eexists; split; [reflexivity | repeat split]|].
    unfold try_except, bind, lift, cats_item, warn, modify, ret.
    destruct (dict_get cats (fst entry)) as [t|]; simpl;
      [|eexists; split; [reflexivity | repeat split]].
    destruct Hc as [-> | ->]; simpl;
      eexists; split; try reflexivity; repeat split.
  - unfold try_except, bind, lift, cats_item, raise, warn, modify, ret.
    split; [|intros _];
      destruct (dict_get cats (fst entry)); simpl; destruct (verbose st);
      try reflexivity; eexists; split; try reflexivity; repeat split.
Qed.

(** C10.  For [c] one of 2MASS and GALEX, the processing of [c] in
    [get_magnitudes] ends normally and leaves the three arrays and the
    iterators as they are, whatever the identifiers and the tables; when
    [c] is not a key of the identifiers the guarded call always raises
    and the handler leaves the state alone but for the warning issued if
    [verbose] is on.  No selector ever reads the triples of [c]: its
    iterator is the same after a whole [get_magnitudes].  After the
    constructor, 2MASS is a key of the identifiers and GALEX is not. *)
Theorem twomass_and_galex_never_write cats c st entry :
  c = "2MASS" \/ c = "GALEX" -> dict_get (catalogs st) c = Some entry ->
  (exists st', get_magnitudes_body cats c st = Ok (tt, st') /\
               same_vector st st' /\ catalogs st' = catalogs st) /\
  (dict_in c (ids st) = false ->
   get_magnitudes_body cats c st =
     Ok (tt, if verbose st then warned (mkWarning c 5) st else st)) /\
  (forall cats' st',
      get_magnitudes cats' st = Ok (tt, st') ->
      dict_get (catalogs st') c = Some entry) /\
  (forall gid v bn st0,
      Librarian_init gid v bn st = Ok (tt, st0) ->
      dict_in "2MASS" (ids st0) = true /\ dict_in "GALEX" (ids st0) = false).
Proof.
  intros Hc He.
  destruct (body_not_dispatched cats c st entry Hc He) as (B1 & B2).
  split; [exact B1|]. split; [exact B2|]. split.
  - intros cats' st' H. apply steps_get_magnitudes, steps_frame in H.
    destruct H as (_ & _ & Hk & _).
    rewrite Hk; [exact He | now apply not_dispatched].
  - intros gid v bn st0. rewrite init_closed_form. intros [= <-].
    split; reflexivity.
Qed.

Lemma twomass_and_galex_never_write_witness :
  let entry := ("II/312/ais", zip galex_mags galex_errs galex_filters) in
  let cats := [("II/312/ais", mkTable [] [])] in
  ("GALEX" = "2MASS" \/ "GALEX" = "GALEX") /\
  dict_get (catalogs unmatched) "GALEX" = Some entry /\
  (exists st', get_magnitudes_body cats "GALEX" unmatched = Ok (tt, st') /\
               same_vector unmatched st' /\
               catalogs st' = catalogs unmatched) /\
  (dict_in "GALEX" (ids unmatched) = false ->
   get_magnitudes_body cats "GALEX" unmatched =
     Ok (tt, if verbose unmatched
             then warned (mkWarning "GALEX" 5) unmatched else unmatched)) /\
  (forall cats' st',
      get_magnitudes cats' unmatched = Ok (tt, st') ->
      dict_get (catalogs st') "GALEX" = Some entry) /\
  (forall gid v bn st0,
      Librarian_init gid v bn unmatched = Ok (tt, st0) ->
      dict_in "2MASS" (ids st0) = true /\ dict_in "GALEX" (ids st0) = false).
Proof.
  intros entry cats.
  assert (H1 : "GALEX" = "2MASS" \/ "GALEX" = "GALEX") by (right; reflexivity).
  assert (H2 : dict_get (catalogs unmatched) "GALEX" = Some entry)
    by reflexivity.
  exact (conj H1 (conj H2
           (twomass_and_galex_never_write cats "GALEX" unmatched entry H1 H2))).
Defined.

(** * Further properties of the code *)

From Stdlib Require Import Lqa.

(** ** Stellar parameters *)

Section GetterProofs.
Variable fsub : Q -> Q -> Q.

Lemma getter_masked val lower upper par res rest st :
  num_col res val = Ok (None :: rest) ->
  percentile_getter fsub val lower upper par res st =
    Ok ((0%Q, Some 0%Q), warned (mkWarning par 1) st).
Proof.
  intros H. unfold percentile_getter, bind, lift. rewrite H. reflexivity.
Qed.

Lemma max2_spec (a b : Q) :
  exists e, max2 (Some a) (Some b) = Some e /\ (e = a \/ e = b) /\
            (a <= e)%Q /\ (b <= e)%Q.
Proof.
  unfold max2, masked_gt.
  destruct (Qle_bool b a) eqn:E; simpl.
  - apply Qle_bool_iff in E. exists a; repeat split; auto. apply Qle_refl.
  - exists b; repeat split; auto; [|apply Qle_refl].
    destruct (Qlt_le_dec a b) as [H|H]; [now apply Qlt_le_weak|].
    apply Qle_bool_iff in H. congruence.
Qed.

Lemma getter_present val lower upper par res st v l u r1 r2 r3 :
  num_col res val = Ok (Some v :: r1) ->
  num_col res lower = Ok (Some l :: r2) ->
  num_col res upper = Ok (Some u :: r3) ->
  exists e,
    percentile_getter fsub val lower upper par res st = Ok ((v, Some e), st) /\
    (e = fsub v l \/ e = fsub u v) /\
    (fsub v l <= e)%Q /\ (fsub u v <= e)%Q /\
    ((fsub v l <= fsub u v)%Q -> e == fsub u v) /\
    ((forall x y, (y <= x)%Q -> (0 <= fsub x y)%Q) ->
     (l <= v)%Q -> (v <= u)%Q -> (0 <= e)%Q).
Proof.
  intros H1 H2 H3. unfold percentile_getter, bind, lift, ret.
  rewrite H1; simpl. rewrite H2; simpl. rewrite H3; simpl.
  destruct (max2_spec (fsub v l) (fsub u v)) as (e & -> & Hor & Ha & Hb).
  exists e. split; [reflexivity|]. split; [exact Hor|].
  split; [exact Ha|]. split; [exact Hb|]. split.
  - intros Hle. apply Qle_antisym; [|exact Hb].
    destruct Hor as [-> | ->]; [exact Hle | apply Qle_refl].
  - intros Hs Hl Hu. destruct Hor as [-> | ->]; now apply Hs.
Qed.

Lemma getter_errors val lower upper par res st :
  (num_col res val = Ok [] ->
   percentile_getter fsub val lower upper par res st = Raise IndexError) /\
  (dict_get (num_cols res) val = None ->
   percentile_getter fsub val lower upper par res st = Raise KeyError) /\
  (forall v r, num_col res val = Ok (Some v :: r) ->
               dict_get (num_cols res) lower = None ->
               percentile_getter fsub val lower upper par res st
               = Raise KeyError).
Proof.
  unfold percentile_getter, bind, lift, num_col, getitem.
  repeat split.
  - intros H; rewrite H; reflexivity.
  - intros H; rewrite H; reflexivity.
  - intros v r H1 H2. rewrite H1; simpl. rewrite H2. reflexivity.
Qed.
End GetterProofs.

(** A masked radius, effective temperature or luminosity gives the pair
    (0, 0) and issues the one warning (name, 1), whatever [verbose] is and
    whether or not the percentile columns exist; nothing else changes. *)
Theorem masked_parameter_gives_zero (fsub : Q -> Q -> Q) :
  let spec (g : table -> M (Q * option Q)) (val par : string) :=
    forall res rest st,
      num_col res val = Ok (None :: rest) ->
      g res st = Ok ((0%Q, Some 0%Q), warned (mkWarning par 1) st) in
  spec (_get_radius fsub) "radius_val" "radius" /\
  spec (_get_teff fsub) "teff_val" "teff" /\
  spec (_get_lum fsub) "lum_val" "lum".
Proof.
  repeat split; intros res rest st H;
    now apply (getter_masked fsub _ _ _ _ _ rest).
Qed.

Lemma masked_parameter_gives_zero_witness :
  num_col gaia_answer "lum_val" = Ok [None] /\
  _get_lum Qminus gaia_answer blank =
    Ok ((0%Q, Some 0%Q), warned (mkWarning "lum" 1) blank).
Proof.
  assert (H : num_col gaia_answer "lum_val" = Ok [None]) by reflexivity.
  split; [exact H|].
  exact (proj2 (proj2 (masked_parameter_gives_zero Qminus))
           gaia_answer [] blank H).
Defined.

(** When the value and its two percentiles are present, the getter
    returns the value unchanged and issues no warning.  The error is one
    of the two rounded differences value - lower and upper - value, as the
    floating-point subtraction [fsub] gives them, and it is not below
    either of them; when they are equal or the second is the larger it
    is the second.  It is not negative when the value lies between the
    percentiles, for a subtraction that gives no negative result on
    ordered arguments, as a rounding subtraction does.  Because the
    differences are rounded, value - error may lie above the lower
    percentile. *)
Theorem parameter_error_is_larger_difference (fsub : Q -> Q -> Q) :
  let spec (g : table -> M (Q * option Q)) (val lower upper : string) :=
    forall res st v l u r1 r2 r3,
      num_col res val = Ok (Some v :: r1) ->
      num_col res lower = Ok (Some l :: r2) ->
      num_col res upper = Ok (Some u :: r3) ->
      exists e,
        g res st = Ok ((v, Some e), st) /\
        (e = fsub v l \/ e = fsub u v) /\
        (fsub v l <= e)%Q /\ (fsub u v <= e)%Q /\
        ((fsub v l <= fsub u v)%Q -> e == fsub u v) /\
        ((forall x y, (y <= x)%Q -> (0 <= fsub x y)%Q) ->
         (l <= v)%Q -> (v <= u)%Q -> (0 <= e)%Q) in
  spec (_get_radius fsub) "radius_val" "radius_percentile_lower"
       "radius_percentile_upper" /\
  spec (_get_teff fsub) "teff_val" "teff_percentile_lower"
       "teff_percentile_upper" /\
  spec (_get_lum fsub) "lum_val" "lum_percentile_lower"
       "lum_percentile_upper".
Proof.
  repeat split; intros res st v l u r1 r2 r3; apply getter_present.
Qed.

(** On the sample answer the radius 2 lies between 1.5 and 3; the two
    differences 0.5 and 1 are exact in binary floating point, so the
    exact subtraction is the rounded one here, and the error is 1. *)
Lemma parameter_error_is_larger_difference_witness :
  num_col gaia_answer "radius_val" = Ok [Some (2 # 1)%Q] /\
  num_col gaia_answer "radius_percentile_lower" = Ok [Some (3 # 2)%Q] /\
  num_col gaia_answer "radius_percentile_upper" = Ok [Some (3 # 1)%Q] /\
  exists e,
    _get_radius Qminus gaia_answer blank = Ok ((2 # 1, Some e)%Q, blank) /\
    (e = (2 # 1) - (3 # 2) \/ e = (3 # 1) - (2 # 1))%Q /\
    ((2 # 1) - (3 # 2) <= e)%Q /\ ((3 # 1) - (2 # 1) <= e)%Q /\
    (((2 # 1) - (3 # 2) <= (3 # 1) - (2 # 1))%Q ->
     e == (3 # 1) - (2 # 1)) /\
    ((forall x y, (y <= x)%Q -> (0 <= x - y)%Q) ->
     (3 # 2 <= 2 # 1)%Q -> (2 # 1 <= 3 # 1)%Q -> (0 <= e)%Q).
Proof.
  assert (H1 : num_col gaia_answer "radius_val" = Ok [Some (2 # 1)%Q])
    by reflexivity.
  assert (H2 : num_col gaia_answer "radius_percentile_lower"
               = Ok [Some (3 # 2)%Q]) by reflexivity.
  assert (H3 : num_col gaia_answer "radius_percentile_upper"
               = Ok [Some (3 # 1)%Q]) by reflexivity.
  exact (conj H1 (conj H2 (conj H3
           (proj1 (parameter_error_is_larger_difference Qminus)
              gaia_answer blank
              (2 # 1)%Q (3 # 2)%Q (3 # 1)%Q [] [] [] H1 H2 H3)))).
Defined.

(** On an answer without rows the getters raise IndexError; on an answer
    without the value column, or with a value but without the column of
    the lower percentile, they raise KeyError. *)
Theorem parameter_getter_failures (fsub : Q -> Q -> Q) :
  let spec (g : table -> M (Q * option Q)) (val lower : string) :=
    forall res st,
      (num_col res val = Ok [] -> g res st = Raise IndexError) /\
      (dict_get (num_cols res) val = None -> g res st = Raise KeyError) /\
      (forall v r, num_col res val = Ok (Some v :: r) ->
                   dict_get (num_cols res) lower = None ->
                   g res st = Raise KeyError) in
  spec (_get_radius fsub) "radius_val" "radius_percentile_lower" /\
  spec (_get_teff fsub) "teff_val" "teff_percentile_lower" /\
  spec (_get_lum fsub) "lum_val" "lum_percentile_lower".
Proof.
  split; [|split]; intros res st; apply getter_errors.
Qed.

Lemma parameter_getter_failures_witness :
  dict_get (num_cols gaia_answer) "teff_val" = None /\
  num_col (mkTable [] [("radius_val", [])]) "radius_val" = Ok [] /\
  _get_teff Qminus gaia_answer blank = Raise KeyError /\
  _get_radius Qminus (mkTable [] [("radius_val", [])]) blank
  = Raise IndexError.
Proof.
  assert (H1 : dict_get (num_cols gaia_answer) "teff_val" = None)
    by reflexivity.
  assert (H2 : num_col (mkTable [] [("radius_val", [])]) "radius_val"
               = Ok []) by reflexivity.
  refine (conj H1 (conj H2 (conj _ _))).
  - exact (proj1 (proj2 (proj1 (proj2 (parameter_getter_failures Qminus))
                           gaia_answer blank)) H1).
  - exact (proj1 (proj1 (parameter_getter_failures Qminus)
                    (mkTable [] [("radius_val", [])]) blank) H2).
Defined.

(** ** Identifier resolution and construction *)

Lemma gaia_query_closed_form bn st :
  gaia_query bn st =
  Ok (tt, mkState (g_id st) (verbose st) (resolved_ids bn (g_id st))
                  (used_filters st) (mags st) (mag_errs st) (catalogs st)
                  (issued st ++
                   if verbose st then no_match_warnings bn else [])%list).
Proof.
  destruct st as [g v i u m e c w].
  unfold gaia_query, resolved_ids, no_match_warnings, resolved, bind,
    modify, get, warn, warned, ret, set_ids, set_issued.
  simpl.
  destruct (bn "tycho2"), (bn "panstarrs1"), (bn "sdssdr9"),
    (bn "allwise"), (bn "tmass"), (bn "apassdr9"), v; simpl;
    rewrite <- ?app_assoc, ?app_nil_r; reflexivity.
Qed.

(** [gaia_query] never fails.  It leaves the arrays, the class attribute
    and [verbose] alone and replaces the identifiers by a dictionary with
    the seven keys ASCC, APASS, 2MASS, Pan-STARRS, SDSS, Wise, Gaia, in
    that order: Gaia is the Gaia id of the instance, and each other
    catalogue is the first identifier that its neighbour table returned,
    or "skipped" when the table returned nothing.  It issues one warning
    (catalogue, 5) per table that returned nothing, in the order of the
    queries, if [verbose] is on, and none otherwise. *)
Theorem gaia_query_resolves bn st :
  exists st',
    gaia_query bn st = Ok (tt, st') /\
    same_vector st st' /\ catalogs st' = catalogs st /\
    verbose st' = verbose st /\ g_id st' = g_id st /\
    dict_keys (ids st') =
      ["ASCC"; "APASS"; "2MASS"; "Pan-STARRS"; "SDSS"; "Wise"; "Gaia"] /\
    dict_get (ids st') "Gaia" = Some (g_id st) /\
    (forall c cat, In (c, cat) neighbour_tables ->
                   dict_get (ids st') cat =
                     Some (match bn c with r0 :: _ => r0 | [] => "skipped" end))
    /\
    issued st' =
      (issued st ++
       if verbose st
       then flat_map (fun p => match bn (fst p) with
                               | [] => [mkWarning (snd p) 5]
                               | _ :: _ => []
                               end) neighbour_tables
       else [])%list.
Proof.
  eexists. split; [apply gaia_query_closed_form|]. simpl.
  split; [repeat split|]. repeat split.
  intros c cat [H|[H|[H|[H|[H|[H|[]]]]]]]; injection H as <- <-; reflexivity.
Qed.

Lemma set_issued_same st : set_issued (issued st) st = st.
Proof. now destruct st. Qed.

Lemma warns_only_refl ok st : warns_only ok st st.
Proof.
  exists []. rewrite app_nil_r, set_issued_same. split; constructor.
Qed.

Lemma warns_only_trans ok a b c :
  warns_only ok a b -> warns_only ok b c -> warns_only ok a c.
Proof.
  intros (w1 & -> & H1) (w2 & -> & H2). exists (w1 ++ w2)%list.
  split; [|now apply Forall_app].
  destruct a; unfold set_issued; simpl. now rewrite app_assoc.
Qed.

Lemma warns_only_warn ok w : In w ok -> preserves (warns_only ok) (warn w).
Proof.
  intros Hw. apply preserves_modify. intros st. exists [w].
  split; [reflexivity|]. now constructor.
Qed.

Section ConstructorProofs.
Variables fsub fadd : Q -> Q -> Q.
Variables fsqr fsqrt : Q -> Q.

Let R := warns_only parameter_warnings.

Lemma R_bind {A B} (m : M A) (k : A -> M B) :
  preserves R m -> (forall a, preserves R (k a)) -> preserves R (bind m k).
Proof.
  apply preserves_bind. intros a b c; apply warns_only_trans.
Qed.

Lemma R_ret {A} (a : A) : preserves R (ret a).
Proof. apply preserves_ret. intros st; apply warns_only_refl. Qed.

Lemma R_lift {A} (r : result A) : preserves R (lift r).
Proof. apply preserves_lift. intros st; apply warns_only_refl. Qed.

Lemma getter_warns_only val lower upper par res :
  In (mkWarning par 1) parameter_warnings ->
  preserves R (percentile_getter fsub val lower upper par res).
Proof.
  intros Hw. unfold percentile_getter.
  apply R_bind; [apply R_lift|]. intros c.
  apply R_bind; [apply R_lift|]. intros [v|].
  - repeat (apply R_bind; [apply R_lift|]; intros ?). apply R_ret.
  - apply R_bind; [now apply warns_only_warn | intros _; apply R_ret].
Qed.

Lemma parallax_warns_only res :
  preserves R (_get_parallax fadd fsqr fsqrt res).
Proof.
  unfold _get_parallax.
  apply R_bind; [apply R_lift|]. intros c.
  apply R_bind; [apply R_lift|]. intros plx.
  destruct (masked_le0 plx).
  - apply R_bind; [|intros _; apply R_ret].
    apply warns_only_warn. simpl; tauto.
  - repeat (apply R_bind; [apply R_lift|]; intros ?). apply R_ret.
Qed.

Lemma gaia_params_warns_only res :
  preserves R (gaia_params fsub fadd fsqr fsqrt res).
Proof.
  unfold gaia_params.
  apply R_bind; [apply parallax_warns_only|]. intros p.
  apply R_bind; [apply getter_warns_only; simpl; tauto|]. intros t.
  apply R_bind; [apply getter_warns_only; simpl; tauto|]. intros r.
  apply R_bind; [apply getter_warns_only; simpl; tauto|]. intros l.
  apply R_ret.
Qed.

Lemma gaia_params_no_row res st :
  num_col res "parallax" = Ok [] ->
  gaia_params fsub fadd fsqr fsqrt res st = Raise IndexError.
Proof.
  intros H. unfold gaia_params, _get_parallax, bind, lift.
  rewrite H. reflexivity.
Qed.

Lemma init_with_id g v cone res bn st :
  __init__ fsub fadd fsqr fsqrt (Some g) v cone res bn st =
  match gaia_params fsub fadd fsqr fsqrt res
          (mkState g v (ids st)
                   (repeat 0 (length filter_names))
                   (repeat 0%Q (length filter_names))
                   (repeat 0%Q (length filter_names))
                   (catalogs st) (issued st)) with
  | Ok (p, st1) =>
      match gaia_query bn st1 with
      | Ok (_, st2) => Ok (p, st2)
      | Raise e => Raise e
      end
  | Raise e => Raise e
  end.
Proof.
  unfold __init__, bind, modify, ret. simpl.
  destruct (gaia_params _ _ _ _ _ _) as [[p st1]|e]; [|reflexivity].
  destruct (gaia_query bn st1) as [[[] st2]|e]; reflexivity.
Qed.

Lemma init_without_id v cone res bn st :
  __init__ fsub fadd fsqr fsqrt None v cone res bn st =
  match cone with
  | g :: _ => __init__ fsub fadd fsqr fsqrt (Some g) v cone res bn st
  | [] => Raise IndexError
  end.
Proof.
  destruct cone as [|g rest]; reflexivity.
Qed.

Lemma init_returns g v cone res bn st p st' :
  __init__ fsub fadd fsqr fsqrt (Some g) v cone res bn st = Ok (p, st') ->
  exists wp,
    Forall (fun w => In w parameter_warnings) wp /\
    Librarian_init g v bn (set_issued (issued st ++ wp) st) = Ok (tt, st').
Proof.
  rewrite init_with_id.
  destruct (gaia_params _ _ _ _ _ _) as [[p1 st1]|e] eqn:E; [|discriminate].
  apply gaia_params_warns_only in E. destruct E as (wp & -> & Hwp).
  rewrite gaia_query_closed_form. intros [= _ <-].
  exists wp. split; [exact Hwp|].
  rewrite init_closed_form. reflexivity.
Qed.
End ConstructorProofs.

(** X5.  The constructor, with [mags] left to its default.  It raises
    IndexError when no Gaia id is given and the cone search returns no
    source, and when the answer of the query of the stellar parameters
    has no row.  When it returns, the Gaia id is the one given or else
    the first source of the cone search; [gaia_params] has issued
    warnings [wp], each one of (0, 0), (teff, 1), (radius, 1), (lum, 1);
    and the instance is the one that the creation of the arrays and the
    identifier resolution give after these warnings: every slot of the
    three arrays is zero, for each of the 24 bands, the identifiers are
    resolved, the class attribute [catalogs] is as it was found, so the
    iterators consumed by an earlier instance stay consumed, and the
    warnings issued before stay, followed by [wp] and by the warnings of
    the identifier resolution. *)
Theorem new_instance_keeps_class_state
  (fsub fadd : Q -> Q -> Q) (fsqr fsqrt : Q -> Q) gid v cone res bn st :
  let init := __init__ fsub fadd fsqr fsqrt gid v cone res bn in
  (gid = None -> cone = [] -> init st = Raise IndexError) /\
  (gid <> None \/ cone <> [] ->
   num_col res "parallax" = Ok [] -> init st = Raise IndexError) /\
  (forall p st',
      init st = Ok (p, st') ->
      exists g wp,
        (gid = Some g \/ gid = None /\ nth_error cone 0 = Some g) /\
        Forall (fun w => In w parameter_warnings) wp /\
        Librarian_init g v bn (set_issued (issued st ++ wp) st)
        = Ok (tt, st') /\
        wf st' /\
        (forall i, (i < length filter_names)%nat ->
                   slot st' i = (Some 0, Some 0%Q, Some 0%Q)) /\
        g_id st' = g /\ verbose st' = v /\
        ids st' = resolved_ids bn g /\
        catalogs st' = catalogs st /\
        issued st' =
          (issued st ++ wp ++
           if v then no_match_warnings bn else [])%list).
Proof.
  intros init; subst init.
  assert (Hsome : forall g p st',
    __init__ fsub fadd fsqr fsqrt (Some g) v cone res bn st = Ok (p, st') ->
    exists wp,
      Forall (fun w => In w parameter_warnings) wp /\
      Librarian_init g v bn (set_issued (issued st ++ wp) st)
      = Ok (tt, st') /\
      wf st' /\
      (forall i, (i < length filter_names)%nat ->
                 slot st' i = (Some 0, Some 0%Q, Some 0%Q)) /\
      g_id st' = g /\ verbose st' = v /\
      ids st' = resolved_ids bn g /\
      catalogs st' = catalogs st /\
      issued st' =
        (issued st ++ wp ++ if v then no_match_warnings bn else [])%list).
  { intros g p st' H. apply init_returns in H. destruct H as (wp & Hwp & H).
    exists wp. split; [exact Hwp|]. split; [exact H|].
    rewrite init_closed_form in H. injection H as <-. simpl.
    split; [repeat split|]. split; [|repeat split].
    - intros i Hi. unfold slot; simpl.
      do 24 (destruct i as [|i]; [reflexivity|]). simpl in Hi; lia.
    - now rewrite app_assoc. }
  split; [|split].
  - intros -> ->. reflexivity.
  - intros Hg Hrow.
    assert (Hs : forall g,
      __init__ fsub fadd fsqr fsqrt (Some g) v cone res bn st
      = Raise IndexError).
    { intros g. rewrite init_with_id, gaia_params_no_row; auto. }
    destruct gid as [g|]; [apply Hs|].
    rewrite init_without_id. destruct cone as [|g rest]; [reflexivity|].
    apply Hs.
  - intros p st' H. destruct gid as [g|].
    + destruct (Hsome g p st' H) as (wp & Hrest).
      exists g, wp. split; [now left | exact Hrest].
    + rewrite init_without_id in H. destruct cone as [|g rest];
        [discriminate|].
      destruct (Hsome g p st' H) as (wp & Hrest).
      exists g, wp. split; [right; split; reflexivity | exact Hrest].
Qed.

(** On an answer without rows the constructor raises; on an answer with a
    negative parallax and a masked radius and luminosity it returns after
    the warnings (0, 0), (radius, 1) and (lum, 1), which come before the
    warnings of the identifier resolution.  The square root is not taken
    on this input. *)
Lemma new_instance_keeps_class_state_witness :
  let init := __init__ Qminus Qplus (fun x => x * x)%Q (fun x => x) in
  init (Some "42") true [] gaia_no_source no_neighbour fresh
  = Raise IndexError /\
  init None true [] gaia_source no_neighbour fresh = Raise IndexError /\
  exists p st',
    init None true ["42"; "43"] gaia_source no_neighbour fresh
    = Ok (p, st') /\
    temp p = (5000 # 1)%Q /\ temp_e p = Some (100 # 1)%Q /\
    plx p = Some 0%Q /\ rad p = 0%Q /\
    g_id st' = "42" /\ catalogs st' = Librarian_catalogs /\
    issued st' =
      ([mkWarning "0" 0; mkWarning "radius" 1; mkWarning "lum" 1] ++
       no_match_warnings no_neighbour)%list.
Proof.
  intros init.
  pose (ops := new_instance_keeps_class_state
                 Qminus Qplus (fun x => x * x)%Q (fun x => x)).
  split; [|split].
  - apply (proj1 (proj2 (ops (Some "42") true [] gaia_no_source
                            no_neighbour fresh))).
    + left; discriminate.
    + reflexivity.
  - apply (proj1 (ops None true [] gaia_source no_neighbour fresh));
      reflexivity.
  - destruct (init None true ["42"; "43"] gaia_source no_neighbour fresh)
      as [[p st']|] eqn:E; [|vm_compute in E; discriminate].
    exists p, st'. split; [reflexivity|].
    destruct (proj2 (proj2 (ops None true ["42"; "43"] gaia_source
                              no_neighbour fresh)) p st' E)
      as (g & wp & Hg & _ & _ & _ & _ & Hid & _ & _ & Hc & _).
    assert (Hg42 : g = "42").
    { destruct Hg as [Hg | [_ Hg]]; [discriminate|].
      simpl in Hg. now injection Hg as <-. }
    vm_compute in E. injection E as <- <-.
    repeat split.
Defined.

(** ** A table that the query service did not return *)

(** For a catalogue that has an identifier other than "skipped", when the
    answer of the query service holds no table under the catalogue's key,
    the processing of that catalogue issues the warning (catalogue, 5),
    with [verbose] on or off, and changes nothing else. *)
Theorem absent_table_warns cats c st entry id :
  dict_get (catalogs st) c = Some entry ->
  dict_get (ids st) c = Some id -> id <> "skipped" ->
  dict_get cats (fst entry) = None ->
  get_magnitudes_body cats c st = Ok (tt, warned (mkWarning c 5) st).
Proof.
  intros Hc Hi Hs Ht.
  unfold get_magnitudes_body, ids_item, bind, get, lift, getitem, dict_in.
  rewrite Hc; simpl. repeat (rewrite Hi; simpl).
  apply String.eqb_neq in Hs. rewrite Hs.
  unfold try_except, bind, lift, cats_item. rewrite Ht. reflexivity.
Qed.

Lemma absent_table_warns_witness :
  dict_get (catalogs with_apass) "APASS" =
    Some ("II/336/apass9", zip apass_mags apass_errs apass_filters) /\
  dict_get (ids with_apass) "APASS" = Some "77" /\ "77" <> "skipped" /\
  dict_get (@nil (string * table)) "II/336/apass9" = None /\
  get_magnitudes_body [] "APASS" with_apass =
    Ok (tt, warned (mkWarning "APASS" 5) with_apass).
Proof.
  assert (H1 : dict_get (catalogs with_apass) "APASS" =
               Some ("II/336/apass9", zip apass_mags apass_errs apass_filters))
    by reflexivity.
  assert (H2 : dict_get (ids with_apass) "APASS" = Some "77") by reflexivity.
  assert (H3 : "77" <> "skipped") by discriminate.
  assert (H4 : dict_get (@nil (string * table)) "II/336/apass9" = None)
    by reflexivity.
  exact (conj H1 (conj H2 (conj H3 (conj H4
           (absent_table_warns [] "APASS" with_apass _ "77" H1 H2 H3 H4))))).
Defined.

(** ** What [get_magnitudes] keeps *)

Lemma table_keys_set d name key its rest :
  dict_get d name = Some (key, its) ->
  map (fun p : string * (string * list triple) => (fst p, fst (snd p)))
      (dict_set d name (key, rest)) =
  map (fun p => (fst p, fst (snd p))) d.
Proof.
  induction d as [|[k [key' its']] d IH]; simpl; [discriminate|].
  destruct (String.eqb_spec name k) as [->|Hk]; simpl.
  - intros [= -> _]. reflexivity.
  - intros H. now rewrite IH.
Qed.

Lemma step_shape ok a b :
  step ok a b ->
  g_id b = g_id a /\ table_keys b = table_keys a /\
  length (used_filters b) = length (used_filters a) /\
  length (mags b) = length (mags a) /\
  length (mag_errs b) = length (mag_errs a).
Proof.
  destruct 1 as [name rest st Hn|w st Hw|st i m e x Hx Hx1 _ _ _].
  - unfold advanced, table_keys.
    destruct (dict_get (catalogs st) name) as [[key z]|] eqn:E;
      [|repeat split].
    simpl. repeat split. eapply table_keys_set; eauto.
  - repeat split.
  - unfold write; simpl. rewrite !set_nth_length. repeat split.
Qed.

Lemma steps_shape ok a b :
  steps ok a b ->
  g_id b = g_id a /\ table_keys b = table_keys a /\
  length (used_filters b) = length (used_filters a) /\
  length (mags b) = length (mags a) /\
  length (mag_errs b) = length (mag_errs a).
Proof.
  induction 1 as [|a b c Hab _ IH]; [repeat split|].
  apply step_shape in Hab.
  destruct Hab as (A1 & A2 & A3 & A4 & A5), IH as (B1 & B2 & B3 & B4 & B5).
  repeat split; congruence.
Qed.

Lemma steps_get_magnitudes_typed cats :
  preserves (steps typed) (get_magnitudes cats).
Proof.
  unfold get_magnitudes.
  apply (preserves_bind _ (steps_trans typed));
    [apply preserves_get, steps_nil | intros st].
  apply (preserves_for_each _ (steps_nil _) (steps_trans _)).
  intros c _. apply steps_body.
  - intros w [H|[H|H]]; unfold typed; rewrite H; simpl; tauto.
  - unfold typed; simpl; tauto.
Qed.

(** A [get_magnitudes] that ends normally leaves the Gaia id, [verbose]
    and the identifiers as they were, keeps the catalogues of the class
    attribute and their table keys, in order, and keeps the length of the
    three arrays.  The warnings issued before stay, and every warning it
    adds has type 2, 3, 4 or 5. *)
Theorem get_magnitudes_keeps cats st st' :
  get_magnitudes cats st = Ok (tt, st') ->
  g_id st' = g_id st /\ verbose st' = verbose st /\ ids st' = ids st /\
  table_keys st' = table_keys st /\
  length (used_filters st') = length (used_filters st) /\
  length (mags st') = length (mags st) /\
  length (mag_errs st') = length (mag_errs st) /\
  exists ws, issued st' = (issued st ++ ws)%list /\
             Forall (fun w => In (w_type w) [2; 3; 4; 5]) ws.
Proof.
  intros H. apply steps_get_magnitudes_typed in H.
  destruct (steps_shape _ _ _ H) as (S1 & S2 & S3 & S4 & S5).
  destruct (steps_frame _ _ _ H) as (F1 & F2 & _ & ws & F3 & F4).
  repeat split; auto. exists ws; split; auto.
Qed.

Lemma get_magnitudes_keeps_witness :
  exists st',
    get_magnitudes
      [("II/336/apass9", apass_table "77" None (Some (1 # 100)%Q))]
      with_apass = Ok (tt, st') /\
    (g_id st' = g_id with_apass /\ verbose st' = verbose with_apass /\
     ids st' = ids with_apass /\
     table_keys st' = table_keys with_apass /\
     length (used_filters st') = length (used_filters with_apass) /\
     length (mags st') = length (mags with_apass) /\
     length (mag_errs st') = length (mag_errs with_apass) /\
     exists ws, issued st' = (issued with_apass ++ ws)%list /\
                Forall (fun w => In (w_type w) [2; 3; 4; 5]) ws).
Proof.
  eexists. split; [vm_compute; reflexivity|].
  apply (get_magnitudes_keeps
           [("II/336/apass9", apass_table "77" None (Some (1 # 100)%Q))]
           with_apass).
  vm_compute; reflexivity.
Defined.

(** ** Slots are untouched or populated *)

Lemma step_clean ok a b : step ok a b -> clean a -> clean b.
Proof.
  intros Hs (Hwf & Hsl).
  destruct Hs as [name rest st Hn|w st Hw|st i m e x Hx Hx1 Hlm Hle _].
  - destruct (same_vector_advanced name rest st) as (Hu & Hm & He).
    unfold clean, wf, slot in *. rewrite Hu, Hm, He. auto.
  - split; auto.
  - destruct Hwf as (Lu & Lm & Le). split.
    + unfold wf, write; simpl. rewrite !set_nth_length. auto.
    + intros j Hj. destruct (Nat.eq_dec j i) as [->|Hji].
      * right. exists m, e. apply slot_write_same; lia.
      * rewrite slot_write_other; auto.
Qed.

Lemma steps_clean ok a b : steps ok a b -> clean a -> clean b.
Proof.
  induction 1 as [|a b c Hab _ IH]; auto.
  intros Ha; apply IH; eapply step_clean; eauto.
Qed.

(** A vector in which every slot is untouched (flag, magnitude and error
    zero) or populated (flag 1) is again such a vector after
    [get_magnitudes]; the vector of a new instance is one.  So when a
    resolution ends normally every flag is 0 or 1, and a band whose flag
    is 0 has magnitude 0 and error 0. *)
Theorem slots_untouched_or_populated cats st st' :
  (clean st -> get_magnitudes cats st = Ok (tt, st') -> clean st') /\
  (forall gid v bn, run gid v bn cats st = Ok (tt, st') -> clean st').
Proof.
  split.
  - intros Hc H. eapply steps_clean; [|exact Hc].
    eapply steps_get_magnitudes; eauto.
  - intros gid v bn. unfold run, bind. rewrite init_closed_form.
    intros H. eapply steps_clean; [eapply steps_get_magnitudes; eauto|].
    split; [repeat split|].
    intros i Hi; left. unfold slot; simpl.
    do 24 (destruct i as [|i]; [reflexivity|]). simpl in Hi; lia.
Qed.

Lemma slots_untouched_or_populated_witness :
  exists st',
    run "42" false no_neighbour
        [("I/345/gaia2", gaia_table (Some (11 # 1)%Q))] fresh = Ok (tt, st') /\
    clean st'.
Proof.
  eexists. split; [vm_compute; reflexivity|].
  apply (proj2 (slots_untouched_or_populated
                  [("I/345/gaia2", gaia_table (Some (11 # 1)%Q))] fresh _)
           "42" false no_neighbour).
  vm_compute; reflexivity.
Defined.

(** ** Bands come from the iterators *)

Lemma iter_shrinks_refl st : iter_shrinks st st.
Proof. intros k key its H. exists []. exact H. Qed.

Lemma iter_shrinks_trans a b c :
  iter_shrinks a b -> iter_shrinks b c -> iter_shrinks a c.
Proof.
  intros H1 H2 k key its H.
  destruct (H2 _ _ _ H) as (p2 & Hb). destruct (H1 _ _ _ Hb) as (p1 & Ha).
  exists (p1 ++ p2)%list. now rewrite <- app_assoc.
Qed.

Lemma unsupplied_shrinks a b i :
  iter_shrinks a b -> unsupplied a i -> unsupplied b i.
Proof.
  intros Hs Hu name key its t Hn Hg Ht.
  destruct (Hs _ _ _ Hg) as (pre & Ha).
  apply (Hu name key _ t Hn Ha). apply in_or_app; now right.
Qed.

Lemma feeds_refl st : feeds st st.
Proof. split; [apply iter_shrinks_refl | reflexivity]. Qed.

Lemma feeds_trans a b c : feeds a b -> feeds b c -> feeds a c.
Proof.
  intros (S1 & U1) (S2 & U2). split.
  - eapply iter_shrinks_trans; eauto.
  - intros i Hi. rewrite U2; [now apply U1|].
    eapply unsupplied_shrinks; eauto.
Qed.

Lemma feeds_same a b :
  same_vector a b -> catalogs b = catalogs a -> feeds a b.
Proof.
  intros (Hu & Hm & He) Hc. split.
  - intros k key its H. exists []. now rewrite <- Hc.
  - intros i _. unfold slot. now rewrite Hu, Hm, He.
Qed.

Lemma advanced_iterator name key t rest st :
  dict_get (catalogs st) name = Some (key, t :: rest) ->
  dict_get (catalogs (advanced name rest st)) name = Some (key, rest) /\
  iter_shrinks st (advanced name rest st) /\
  same_vector st (advanced name rest st).
Proof.
  intros H. split; [|split; [|apply same_vector_advanced]].
  - unfold advanced. rewrite H. simpl. eapply dict_get_set; eauto.
  - intros k key' its' Hk. unfold advanced in Hk. rewrite H in Hk.
    simpl in Hk. destruct (String.eqb_spec k name) as [->|Hkn].
    + rewrite (dict_get_set _ _ _ _ H) in Hk. injection Hk as <- <-.
      exists [t]. exact H.
    + rewrite dict_get_set_other in Hk by auto. exists []. exact Hk.
Qed.

Lemma add_mags_catalogs mag er filt st u st' :
  _add_mags mag er filt st = Ok (u, st') ->
  catalogs st' = catalogs st /\
  (st' = st \/
   exists i m e, where_eq filt filter_names = [i] /\ st' = write i m e st).
Proof.
  intros H. apply add_mags_inv in H.
  destruct H as [->|(i & m & e & x & Hw & _ & _ & _ & _ & _ & _ & ->)].
  - split; auto.
  - split; [reflexivity|]. right; eauto.
Qed.

Lemma feeds_retrieve_loop cat name key :
  In name dispatched ->
  forall its st st',
    dict_get (catalogs st) name = Some (key, its) ->
    retrieve_loop cat name its st = Ok (tt, st') -> feeds st st'.
Proof.
  intros Hn. induction its as [|[[m e] f] rest IH]; intros st st' Hit; simpl.
  - intros [= <-]. apply feeds_refl.
  - destruct (advanced_iterator name key (m, e, f) rest st Hit)
      as (Hrest & Hshr & Hsame).
    set (st1 := advanced name rest st) in *.
    assert (F1 : feeds st st1).
    { split; auto. intros i _. destruct Hsame as (Hu & Hm & He).
      unfold slot. now rewrite Hu, Hm, He. }
    unfold bind at 1. unfold advance, modify. fold st1.
    unfold bind, get, lift.
    destruct (take_idx (used_filters st1) (where_eq f filter_names))
      as [u|]; try discriminate.
    destruct (truth (map (fun x => Z.eqb x 1) u)) as [b|]; try discriminate.
    destruct b.
    { destruct (verbose st1); intros [= <-]; exact F1. }
    destruct (num_col cat m) as [mag|]; try discriminate.
    destruct (num_col cat e) as [err|]; try discriminate.
    assert (W : forall w, feeds st (warned w st1)).
    { intros w. eapply feeds_trans; [exact F1|].
      apply feeds_same; repeat split. }
    destruct (is_masked mag); [intros [= <-]; apply W|].
    destruct (is_masked err); [intros [= <-]; apply W|].
    destruct (truth (col_is_zero err)) as [z|]; try discriminate.
    destruct z; [intros [= <-]; apply W|].
    destruct (_add_mags (col_data mag) (col_data err) f st1)
      as [[[] st2]|] eqn:Ha; try discriminate.
    intros Hloop.
    destruct (add_mags_catalogs _ _ _ _ _ _ Ha) as (Hc2 & Hcase).
    assert (F2 : feeds st st2).
    { destruct Hcase as [->|(i & mv & ev & Hw & ->)]; [exact F1|].
      split.
      - intros k key' its' Hk. apply Hshr. exact Hk.
      - intros j Hj. rewrite slot_write_other.
        + now apply F1.
        + intros ->. apply (Hj name key _ (m, e, f) Hn Hit); [now left|].
          exact Hw. }
    eapply feeds_trans; [exact F2|].
    apply (IH st2 st'); auto. now rewrite Hc2.
Qed.

Lemma feeds_retrieve_from_cat cat name :
  In name dispatched -> preserves feeds (_retrieve_from_cat cat name).
Proof.
  intros Hn st [] st'. unfold _retrieve_from_cat, bind, get, lift, getitem.
  destruct (dict_get (catalogs st) name) as [[key its]|] eqn:E;
    try discriminate.
  simpl. eapply feeds_retrieve_loop; eauto.
Qed.

Lemma feeds_warn w : preserves feeds (warn w).
Proof.
  apply preserves_modify; intros st. apply feeds_same; repeat split.
Qed.

(** Lifting a relation from the extractor to the orchestrator. *)
Section Lift.
Variable R : state -> state -> Prop.
Hypothesis R_refl : forall st, R st st.
Hypothesis R_trans : forall a b c, R a b -> R b c -> R a c.
Hypothesis R_warn : forall w, preserves R (warn w).
Hypothesis R_retrieve :
  forall cat name, In name dispatched ->
                   preserves R (_retrieve_from_cat cat name).

Lemma lift_ids_item name : preserves R (ids_item name).
Proof.
  unfold ids_item. apply preserves_bind; auto.
  - now apply preserves_get.
  - intros st; now apply preserves_lift.
Qed.

Lemma lift_by_id name column (fmt : string -> string) cat :
  In name dispatched ->
  preserves R (id <- ids_item name ;; select_by cat column (fmt id) name).
Proof.
  intros Hn. apply preserves_bind; auto; [apply lift_ids_item|].
  intros id. unfold select_by. apply preserves_bind_lift. intros col _.
  apply preserves_bind_lift. intros selected _.
  now apply R_retrieve.
Qed.

Lemma lift_get_ascc cat : preserves R (_get_ascc cat).
Proof.
  unfold _get_ascc. apply preserves_bind; auto; [apply lift_ids_item|].
  intros id.
  destruct (split "-" id) as [|t1 [|t2 [|t3 [|t4 l]]]];
    try apply preserves_raise.
  apply preserves_bind_lift; intros c1 _.
  apply preserves_bind_lift; intros c2 _.
  apply preserves_bind_lift; intros c3 _.
  apply preserves_bind_lift; intros selected _.
  apply R_retrieve. simpl; tauto.
Qed.

Lemma lift_body cats c : preserves R (get_magnitudes_body cats c).
Proof.
  unfold get_magnitudes_body.
  apply preserves_bind; auto; [now apply preserves_get | intros st].
  apply preserves_bind_lift; intros entry _.
  destruct (dict_in c (ids st)).
  - apply preserves_bind; auto; [apply lift_ids_item | intros id].
    destruct (String.eqb id "skipped"); [now apply preserves_ret|].
    apply preserves_bind; auto.
    + apply preserves_try.
      * apply preserves_bind_lift; intros t _. now apply preserves_ret.
      * apply preserves_bind; auto. intros _; now apply preserves_ret.
    + intros [current_cat|]; [|now apply preserves_ret].
      destruct (String.eqb c "APASS");
        [apply (lift_by_id "APASS" "recno" (fun x => x)); simpl; tauto|].
      destruct (String.eqb c "Wise");
        [apply (lift_by_id "Wise" "AllWISE" (fun x => x)); simpl; tauto|].
      destruct (String.eqb c "ASCC"); [apply lift_get_ascc|].
      destruct (String.eqb c "SDSS");
        [apply (lift_by_id "SDSS" "SDSS12" (fun x => x)); simpl; tauto|].
      destruct (String.eqb c "Pan-STARRS");
        [apply (lift_by_id "Pan-STARRS" "objID" (fun x => x));
         simpl; tauto|].
      destruct (String.eqb c "Gaia");
        [apply (lift_by_id "Gaia" "DR2Name" (fun x => "Gaia DR2 " ++ x));
         simpl; tauto|].
      now apply preserves_ret.
  - apply preserves_try.
    + apply preserves_bind_lift; intros t _. apply preserves_raise.
    + destruct (verbose st); [apply R_warn | now apply preserves_ret].
Qed.

Lemma lift_get_magnitudes cats : preserves R (get_magnitudes cats).
Proof.
  unfold get_magnitudes.
  apply preserves_bind; auto; [now apply preserves_get | intros st].
  apply preserves_for_each; auto. intros c _; apply lift_body.
Qed.
End Lift.

(** After a [get_magnitudes] that ends normally every iterator of the
    class attribute holds a suffix of what it held, and a slot has
    changed only if, before the call, the iterator of one of the six
    dispatched catalogues held a triple for its band. *)
Theorem bands_come_from_iterators cats st st' :
  get_magnitudes cats st = Ok (tt, st') ->
  iter_shrinks st st' /\
  (forall i, unsupplied st i -> slot st' i = slot st i).
Proof.
  apply (lift_get_magnitudes feeds feeds_refl feeds_trans feeds_warn
           feeds_retrieve_from_cat).
Qed.

Lemma bands_come_from_iterators_witness :
  exists st',
    get_magnitudes
      [("II/336/apass9", apass_table "77" None (Some (1 # 100)%Q))]
      with_apass = Ok (tt, st') /\
    iter_shrinks with_apass st' /\
    (forall i, unsupplied with_apass i -> slot st' i = slot with_apass i).
Proof.
  eexists. split; [vm_compute; reflexivity|].
  apply (bands_come_from_iterators
           [("II/336/apass9", apass_table "77" None (Some (1 # 100)%Q))]
           with_apass).
  vm_compute; reflexivity.
Defined.

(** Once the iterators of the six dispatched catalogues are consumed,
    [get_magnitudes] changes none of the three arrays, whatever the
    identifiers and the tables are. *)
Theorem consumed_iterators_write_nothing cats st st' :
  (forall name key its,
      In name dispatched -> dict_get (catalogs st) name = Some (key, its) ->
      its = []) ->
  get_magnitudes cats st = Ok (tt, st') ->
  same_vector st st'.
Proof.
  intros Hempty H. apply bands_come_from_iterators in H.
  destruct H as (_ & Hslot).
  assert (Hall : forall i, slot st' i = slot st i).
  { intros i. apply Hslot. intros name key its t Hn Hg Ht.
    rewrite (Hempty name key its Hn Hg) in Ht. destruct Ht. }
  repeat split; apply nth_error_ext; intros i; specialize (Hall i);
    unfold slot in Hall; congruence.
Qed.

Lemma consumed_iterators_write_nothing_witness :
  (forall name key its,
      In name dispatched ->
      dict_get (catalogs consumed) name = Some (key, its) -> its = []) /\
  exists st',
    get_magnitudes [("I/345/gaia2", gaia_table (Some (11 # 1)%Q))] consumed
      = Ok (tt, st') /\
    same_vector consumed st'.
Proof.
  assert (H : forall name key its,
             In name dispatched ->
             dict_get (catalogs consumed) name = Some (key, its) -> its = []).
  { intros name key its Hn.
    simpl in Hn.
    repeat (destruct Hn as [<-|Hn]; [intros [= _ <-]; reflexivity|]).
    destruct Hn. }
  split; [exact H|]. eexists. split; [vm_compute; reflexivity|].
  apply (consumed_iterators_write_nothing
           [("I/345/gaia2", gaia_table (Some (11 # 1)%Q))] consumed _ H).
  vm_compute; reflexivity.
Defined.

Lemma orphans_unsupplied i : In i orphan_bands -> unsupplied fresh i.
Proof.
  intros Hi name key its t Hn Hg Ht.
  simpl in Hn.
  repeat (destruct Hn as [<-|Hn];
          [injection Hg as <- <-; simpl in Ht;
           repeat (destruct Ht as [<-|Ht];
                   [simpl in Hi;
                    repeat (destruct Hi as [<-|Hi]; [discriminate|]);
                    destruct Hi|]);
           destruct Ht|]).
  destruct Hn.
Qed.

(** In an interpreter that has done nothing to the iterators but consume
    them, no resolution populates GROUND_JOHNSON_U, PS1_w, GALEX_FUV or
    GALEX_NUV: when it ends normally their slots hold flag 0, magnitude 0
    and error 0, whatever the service and the tables return. *)
Theorem orphan_bands_stay_unused gid v bn cats st st' i :
  iter_shrinks fresh st -> In i orphan_bands ->
  run gid v bn cats st = Ok (tt, st') ->
  slot st' i = (Some 0, Some 0%Q, Some 0%Q).
Proof.
  intros Hs Hi. unfold run, bind. rewrite init_closed_form.
  intros H. apply bands_come_from_iterators in H. destruct H as (_ & Hslot).
  rewrite Hslot.
  - unfold slot; simpl. unfold orphan_bands in Hi; simpl in Hi.
    repeat (destruct Hi as [<-|Hi]; [reflexivity|]). destruct Hi.
  - intros name key its t Hn Hg Ht. simpl in Hg.
    destruct (Hs _ _ _ Hg) as (pre & Hf).
    apply (orphans_unsupplied i Hi name key _ t Hn Hf).
    apply in_or_app; now right.
Qed.

Lemma orphan_bands_stay_unused_witness :
  iter_shrinks fresh fresh /\ In 22%nat orphan_bands /\
  exists st',
    run "42" true only_tmass [("II/312/ais", mkTable [] [])] fresh
      = Ok (tt, st') /\
    slot st' 22 = (Some 0, Some 0%Q, Some 0%Q).
Proof.
  assert (H1 : iter_shrinks fresh fresh) by apply iter_shrinks_refl.
  assert (H2 : In 22%nat orphan_bands) by (simpl; tauto).
  split; [exact H1|]. split; [exact H2|].
  eexists. split; [vm_compute; reflexivity|].
  apply (orphan_bands_stay_unused "42" true only_tmass
           [("II/312/ais", mkTable [] [])] fresh _ 22 H1 H2).
  vm_compute; reflexivity.
Defined.

(** ** A valid row populates every band of its catalogue *)

Lemma where_index f i :
  where_eq f filter_names = [i] ->
  (i < length filter_names)%nat /\ f = nth i filter_names "".
Proof.
  intros H. destruct (where_filter_names f) as [E|(j & Hj & E & Hf)].
  - rewrite E in H; discriminate.
  - rewrite E in H. injection H as <-. split; auto.
    symmetry. now apply nth_error_nth.
Qed.

Lemma where_same_index f g i :
  where_eq f filter_names = [i] -> where_eq g filter_names = [i] -> f = g.
Proof.
  intros Hf Hg. apply where_index in Hf, Hg.
  destruct Hf as (_ & ->), Hg as (_ & ->). reflexivity.
Qed.

Lemma retrieve_loop_accepts cat name m e f rest st i mv ev :
  wf st ->
  where_eq f filter_names = [i] -> ~ is_used st i ->
  num_col cat m = Ok [Some mv] -> num_col cat e = Ok [Some ev] ->
  ~ (ev == 0)%Q ->
  retrieve_loop cat name ((m, e, f) :: rest) st =
  retrieve_loop cat name rest (write i mv ev (advanced name rest st)).
Proof.
  intros Hwf Hw Hnu Hm He Hne.
  destruct (where_index f i Hw) as (Hi & Hf).
  destruct (same_vector_advanced name rest st) as (Su & Sm & Se).
  set (st1 := advanced name rest st) in *.
  assert (Hwf1 : wf st1).
  { unfold wf in *. now rewrite Su, Sm, Se. }
  assert (Hnu1 : ~ is_used st1 i).
  { unfold is_used in *. now rewrite Su. }
  assert (Hadd : _add_mags [mv] [ev] f st1 = Ok (tt, write i mv ev st1)).
  { rewrite Hf. now apply add_mags_unused. }
  simpl. unfold bind at 1. unfold advance, modify. fold st1.
  unfold bind, get, lift. rewrite Hw. simpl.
  destruct Hwf1 as (Lu & _).
  destruct (nth_error (used_filters st1) i) as [x|] eqn:Ex.
  2:{ apply nth_error_None in Ex. lia. }
  simpl. destruct (Z.eqb_spec x 1) as [->|Hx].
  { exfalso; apply Hnu1; exact Ex. }
  rewrite Hm, He. simpl.
  destruct (Qeq_bool ev 0) eqn:Ez.
  { exfalso; apply Hne. now apply Qeq_bool_iff. }
  unfold bind in Hadd. simpl in Hadd. fold st1. rewrite Hadd. reflexivity.
Qed.

Lemma retrieve_loop_populates cat name its : forall st,
  wf st -> NoDup (map snd its) -> Forall (acceptable cat st) its ->
  exists st',
    retrieve_loop cat name its st = Ok (tt, st') /\
    (forall m e f, In (m, e, f) its ->
       exists i mv ev,
         where_eq f filter_names = [i] /\
         num_col cat m = Ok [Some mv] /\ num_col cat e = Ok [Some ev] /\
         slot st' i = (Some 1, Some mv, Some ev)) /\
    (forall j, (forall t, In t its -> where_eq (snd t) filter_names <> [j]) ->
               slot st' j = slot st j) /\
    issued st' = issued st.
Proof.
  induction its as [|[[m e] f] rest IH]; intros st Hwf Hnd Hall.
  - exists st. simpl. repeat split; auto. intros m e f [].
  - inversion Hall as [|t l Hacc Hrest]; subst.
    inversion Hnd as [|b l Hnotin Hnd']; subst.
    destruct Hacc as (i & mv & ev & Hw & Hnu & Hm & He & Hne).
    simpl in Hw, Hm, He.
    destruct (same_vector_advanced name rest st) as (Su & Sm & Se).
    set (st1 := advanced name rest st) in *.
    set (st2 := write i mv ev st1).
    assert (Hslot1 : forall j, slot st1 j = slot st j).
    { intros j; unfold slot; now rewrite Su, Sm, Se. }
    assert (Hwf2 : wf st2).
    { unfold wf, st2, write in *; simpl. rewrite !set_nth_length.
      now rewrite Su, Sm, Se. }
    assert (Hother : forall t, In t rest ->
                               where_eq (snd t) filter_names <> [i]).
    { intros t Ht Hwt. apply Hnotin.
      rewrite (where_same_index _ _ _ Hw Hwt). now apply in_map. }
    assert (Hall2 : Forall (acceptable cat st2) rest).
    { rewrite Forall_forall in *. intros t Ht.
      destruct (Hrest t Ht) as (j & mv' & ev' & Hwj & Hnuj & R).
      exists j, mv', ev'. split; auto. split; auto.
      intros Hu. apply Hnuj. unfold is_used in *.
      assert (Hji : j <> i) by (intros ->; apply (Hother t Ht Hwj)).
      assert (Hs : slot st2 j = slot st j).
      { unfold st2. rewrite slot_write_other; auto. }
      unfold slot in Hs. congruence. }
    destruct (IH st2 Hwf2 Hnd' Hall2) as (st' & Hloop & Hpop & Hkeep & Hiss).
    exists st'. split; [|split; [|split]].
    + rewrite (retrieve_loop_accepts cat name m e f rest st i mv ev); auto.
    + intros m' e' f' [[= <- <- <-]|Hin]; [|now apply Hpop].
      exists i, mv, ev. repeat split; auto.
      rewrite (Hkeep i Hother). unfold st2.
      destruct Hwf as (Lu & Lm & Le). destruct (where_index f i Hw) as (Hi & _).
      apply slot_write_same; rewrite ?Su, ?Sm, ?Se; lia.
    + intros j Hj. rewrite Hkeep.
      * unfold st2. rewrite slot_write_other; auto.
        intros ->. apply (Hj (m, e, f)); [now left | exact Hw].
      * intros t Ht. apply Hj. now right.
    + rewrite Hiss. unfold st2, st1, write, advanced; simpl.
      destruct (dict_get (catalogs st) name) as [[key z]|]; reflexivity.
Qed.

(** When every triple that the iterator of [name] holds is acceptable (a
    registry band not yet used, the selected table with one row whose
    magnitude and error are unmasked and whose error is not zero) and the
    triples are for different bands, [_retrieve_from_cat] ends normally,
    populates the band of each triple with the magnitude and the error of
    the row, leaves every other slot as it was and issues no warning. *)
Theorem valid_row_populates_bands cat name key its st :
  dict_get (catalogs st) name = Some (key, its) ->
  wf st -> NoDup (map snd its) -> Forall (acceptable cat st) its ->
  exists st',
    _retrieve_from_cat cat name st = Ok (tt, st') /\
    (forall m e f, In (m, e, f) its ->
       exists i mv ev,
         where_eq f filter_names = [i] /\
         num_col cat m = Ok [Some mv] /\ num_col cat e = Ok [Some ev] /\
         slot st' i = (Some 1, Some mv, Some ev)) /\
    (forall j, (forall t, In t its -> where_eq (snd t) filter_names <> [j]) ->
               slot st' j = slot st j) /\
    issued st' = issued st.
Proof.
  intros Hc Hwf Hnd Hall.
  destruct (retrieve_loop_populates cat name its st Hwf Hnd Hall)
    as (st' & Hloop & R).
  exists st'. split; [|exact R].
  unfold _retrieve_from_cat, bind, get, lift, getitem. rewrite Hc. exact Hloop.
Qed.

Lemma valid_row_populates_bands_witness :
  let cat := gaia_table (Some (11 # 1)%Q) in
  let its := zip gaia_mags gaia_errs gaia_filters in
  dict_get (catalogs blank) "Gaia" = Some ("I/345/gaia2", its) /\
  wf blank /\ NoDup (map snd its) /\ Forall (acceptable cat blank) its /\
  exists st',
    _retrieve_from_cat cat "Gaia" blank = Ok (tt, st') /\
    (forall m e f, In (m, e, f) its ->
       exists i mv ev,
         where_eq f filter_names = [i] /\
         num_col cat m = Ok [Some mv] /\ num_col cat e = Ok [Some ev] /\
         slot st' i = (Some 1, Some mv, Some ev)) /\
    (forall j, (forall t, In t its -> where_eq (snd t) filter_names <> [j]) ->
               slot st' j = slot blank j) /\
    issued st' = issued blank.
Proof.
  intros cat its.
  assert (H1 : dict_get (catalogs blank) "Gaia" = Some ("I/345/gaia2", its))
    by reflexivity.
  assert (H2 : wf blank) by (repeat split).
  assert (H3 : NoDup (map snd its)).
  { repeat constructor; simpl; intuition discriminate. }
  assert (H4 : Forall (acceptable cat blank) its).
  { repeat constructor.
    - exists 6%nat, (21 # 2)%Q, (1 # 100)%Q.
      repeat split; try reflexivity; intros H; discriminate H.
    - exists 8%nat, (11 # 1)%Q, (2 # 100)%Q.
      repeat split; try reflexivity; intros H; discriminate H.
    - exists 7%nat, (10 # 1)%Q, (3 # 100)%Q.
      repeat split; try reflexivity; intros H; discriminate H. }
  exact (conj H1 (conj H2 (conj H3 (conj H4
           (valid_row_populates_bands cat "Gaia" "I/345/gaia2" its blank
              H1 H2 H3 H4))))).
Defined.

(** ** The selectors on one column *)







(** ** The identifier of ASCC *)

Lemma split_length sep s : length (split sep s) = S (occurrences sep s).
Proof.
  induction s as [|a s IH]; simpl; [reflexivity|].
  destruct (Ascii.eqb a sep); simpl; [now rewrite IH|].
  destruct (split sep s) as [|p ps]; simpl in *; [discriminate | exact IH].
Qed.

(** [_get_ascc] needs an identifier with exactly two dashes: with any
    other number of dashes the unpacking fails and it raises ValueError,
    whatever the table holds; without an identifier for ASCC it raises
    KeyError. *)
Theorem ascc_identifier_needs_two_dashes cat st :
  (forall id, dict_get (ids st) "ASCC" = Some id ->
              occurrences "-" id <> 2%nat ->
              _get_ascc cat st = Raise ValueError) /\
  (dict_get (ids st) "ASCC" = None -> _get_ascc cat st = Raise KeyError).
Proof.
  unfold _get_ascc, ids_item, bind, get, lift, getitem. split.
  - intros id Hid Hn. rewrite Hid; simpl.
    pose proof (split_length "-" id) as Hl.
    destruct (split "-" id) as [|t1 [|t2 [|t3 [|t4 l]]]]; simpl in Hl;
      try reflexivity.
    exfalso; apply Hn; congruence.
  - intros H; rewrite H; reflexivity.
Qed.

Lemma ascc_identifier_needs_two_dashes_witness :
  dict_get (ids with_short_tycho) "ASCC" = Some "12-345" /\
  occurrences "-" "12-345" <> 2%nat /\
  _get_ascc ascc_table with_short_tycho = Raise ValueError.
Proof.
  assert (H1 : dict_get (ids with_short_tycho) "ASCC" = Some "12-345")
    by reflexivity.
  assert (H2 : occurrences "-" "12-345" <> 2%nat) by discriminate.
  split; [exact H1|]. split; [exact H2|].
  exact (proj1 (ascc_identifier_needs_two_dashes ascc_table with_short_tycho)
           "12-345" H1 H2).
Defined.

(** ** A selection without a row, or with several *)

(** At a registry band that is not used yet, when the selected table has
    the two columns of the triple, unmasked and of one length, but that
    length is not one (no row was selected, or several), the loop of
    [_retrieve_from_cat] raises ValueError. *)
Theorem row_count_other_than_one_raises cat name m e f rest st i x mag err :
  where_eq f filter_names = [i] ->
  nth_error (used_filters st) i = Some x -> x <> 1 ->
  num_col cat m = Ok mag -> num_col cat e = Ok err ->
  is_masked mag = false -> is_masked err = false ->
  length mag = length err -> length err <> 1%nat ->
  retrieve_loop cat name ((m, e, f) :: rest) st = Raise ValueError.
Proof.
  intros Hw Hx Hx1 Hm He Mm Me Hlen Hn1.
  destruct (same_vector_advanced name rest st) as (Su & Sm & Se).
  simpl. unfold bind at 1. unfold advance, modify.
  set (st1 := advanced name rest st) in *.
  unfold bind, get, lift. rewrite Hw; simpl. rewrite Su, Hx; simpl.
  destruct (Z.eqb_spec x 1) as [|_]; [contradiction|].
  rewrite Hm, He, Mm, Me.
  destruct err as [|c1 [|c2 err]]; simpl in *.
  - destruct mag; [|discriminate].
    unfold _add_mags, bind, get, lift, modify. rewrite Hw; simpl.
    rewrite Su, Hx; simpl.
    destruct (Z.eqb_spec x 1) as [|_]; [contradiction|].
    assert (Hi : (i < length (used_filters st))%nat).
    { apply nth_error_Some. congruence. }
    destruct (Nat.ltb_spec i (length (used_filters st))); [|lia].
    reflexivity.
  - contradiction.
  - reflexivity.
Qed.

Lemma row_count_other_than_one_raises_witness :
  where_eq "GROUND_JOHNSON_V" filter_names = [4%nat] /\
  nth_error (used_filters blank) 4 = Some 0 /\ 0 <> 1 /\
  num_col apass_no_row "Vmag" = Ok [] /\
  num_col apass_no_row "e_Vmag" = Ok [] /\
  is_masked [] = false /\ is_masked [] = false /\
  length (@nil (option Q)) = length (@nil (option Q)) /\
  length (@nil (option Q)) <> 1%nat /\
  retrieve_loop apass_no_row "APASS"
    [("Vmag", "e_Vmag", "GROUND_JOHNSON_V")] blank = Raise ValueError.
Proof.
  assert (H1 : where_eq "GROUND_JOHNSON_V" filter_names = [4%nat])
    by reflexivity.
  assert (H2 : nth_error (used_filters blank) 4 = Some 0) by reflexivity.
  assert (H3 : 0 <> 1) by discriminate.
  assert (H4 : num_col apass_no_row "Vmag" = Ok []) by reflexivity.
  assert (H5 : num_col apass_no_row "e_Vmag" = Ok []) by reflexivity.
  assert (H6 : is_masked [] = false) by reflexivity.
  assert (H7 : length (@nil (option Q)) = length (@nil (option Q)))
    by reflexivity.
  assert (H8 : length (@nil (option Q)) <> 1%nat) by discriminate.
  exact (conj H1 (conj H2 (conj H3 (conj H4 (conj H5 (conj H6 (conj H6
         (conj H7 (conj H8
           (row_count_other_than_one_raises apass_no_row "APASS"
              "Vmag" "e_Vmag" "GROUND_JOHNSON_V" [] blank 4 0 [] []
              H1 H2 H3 H4 H5 H6 H6 H7 H8)))))))))).
Defined.

(** ** A band that the registry does not hold *)

(** For a band name that is not in [filter_names], [_add_mags] given a
    magnitude and an error of at most one element does not fail and
    changes nothing: the index array is empty, its comparison counts as
    false and the three assignments assign nowhere. *)
Theorem unknown_band_is_ignored mag er filt st :
  ~ In filt filter_names ->
  (length mag <= 1)%nat -> (length er <= 1)%nat ->
  _add_mags mag er filt st = Ok (tt, st).
Proof.
  intros Hf Hm He.
  unfold _add_mags, bind, get, lift, modify, where_eq.
  rewrite (where_from_absent 0 filt filter_names Hf). simpl.
  destruct st as [g v i u m e c w].
  destruct mag as [|x [|y mag]]; simpl in Hm; try lia;
    destruct er as [|x' [|y' er]]; simpl in He; try lia; reflexivity.
Qed.

Lemma unknown_band_is_ignored_witness :
  ~ In "SDSS_x" filter_names /\
  (length [(15 # 1)%Q] <= 1)%nat /\ (length [(1 # 10)%Q] <= 1)%nat /\
  _add_mags [(15 # 1)%Q] [(1 # 10)%Q] "SDSS_x" blank = Ok (tt, blank).
Proof.
  assert (H1 : ~ In "SDSS_x" filter_names).
  { simpl. intros H.
    repeat (destruct H as [H|H]; [discriminate H|]). exact H. }
  assert (H2 : (length [(15 # 1)%Q] <= 1)%nat) by (simpl; lia).
  assert (H3 : (length [(1 # 10)%Q] <= 1)%nat) by (simpl; lia).
  exact (conj H1 (conj H2 (conj H3
           (unknown_band_is_ignored [(15 # 1)%Q] [(1 # 10)%Q] "SDSS_x" blank
              H1 H2 H3)))).
Defined.
